(** * elasticsearch_api: a model of [index.js] and of its stated properties

    The module wraps an Elasticsearch client: every exported operation
    returns a promise, retries the request on backpressure with a jittered,
    widening delay, and rejects with a normalized reason otherwise.

    The first half of this file transcribes the functions of [index.js]
    ([parseError], [_filterResponse], [retry], [_errorHandler], [search],
    [count], the point operations and [bulkSend]); the second half states
    and proves their properties.

    Conventions of the embedding:
    - JavaScript values that the code inspects dynamically (errors, query
      descriptors, bulk entries) are trees of type [js]; numbers held in
      them are integers;
    - an expression that may raise has type [outcome A];
    - the client and the timer are the environment: a call chain is a state
      machine that consumes, per attempt, the client's answer and the value
      [Math.random()] returned, a binary64 number as in the engine;
    - the promise of a call is a [promise] value of the chain's state. *)

From Stdlib Require Import ZArith Ascii String Floats.
From stdpp Require Import gmap strings list pretty.

Set Warnings "-register-all,-clear-no-such-hyp".

Open Scope Z_scope.

(** ** JavaScript values *)

Module Js.

(** A function value is modelled by what calling it without arguments
    does: [Some v] returns [v], [None] raises. Objects keep their own
    properties in enumeration order. *)
Inductive js : Type :=
| JUndefined
| JNull
| JBool (b : bool)
| JNum (n : Z)
| JStr (s : string)
| JArr (xs : list js)
| JObj (fields : list (string * js))
| JFun (call : option js).

(** The result of evaluating an expression: a value, or an exception. *)
Inductive outcome (A : Type) : Type :=
| Returns (a : A)
| Throws.
Arguments Returns {A} a.
Arguments Throws {A}.

#[global] Instance outcome_ret : MRet outcome := fun A a => Returns a.
#[global] Instance outcome_bind : MBind outcome := fun A B f m =>
  match m with
  | Returns a => f a
  | Throws => Throws
  end.

Definition returns {A} (m : outcome A) : bool :=
  match m with Returns _ => true | Throws => false end.

(** [if (v)]: the falsy values are undefined, null, false, 0 and the
    empty string. *)
Definition truthy (v : js) : bool :=
  match v with
  | JUndefined | JNull => false
  | JBool b => b
  | JNum n => negb (n =? 0)
  | JStr s => negb (String.eqb s "")
  | JArr _ | JObj _ | JFun _ => true
  end.

(** [v === 'text'] *)
Definition is_str (v : js) (text : string) : bool :=
  match v with
  | JStr s => String.eqb s text
  | _ => false
  end.

Fixpoint field (k : string) (fields : list (string * js)) : js :=
  match fields with
  | [] => JUndefined
  | (k', v) :: rest => if String.eqb k' k then v else field k rest
  end.

(** [v[k]] for the property names the module reads ([toJSON], [msg],
    [stack], [response], [body], [error], [type], [root_cause], ...):
    none of them is defined on a primitive, an array or a function, so
    only objects answer with something else than undefined. *)
Definition read (v : js) (k : string) : js :=
  match v with
  | JObj fields => field k fields
  | _ => JUndefined
  end.

(** [v.k]: reading a property of undefined or null raises a TypeError. *)
Definition prop (v : js) (k : string) : outcome js :=
  match v with
  | JUndefined | JNull => Throws
  | _ => Returns (read v k)
  end.

(** [f()]: calling what is not a function raises a TypeError. *)
Definition call (f : js) : outcome js :=
  match f with
  | JFun (Some v) => Returns v
  | _ => Throws
  end.

(** [_.get(v, path)]: undefined as soon as the walk meets undefined or
    null before the path ends. *)
Fixpoint lodash_get (v : js) (path : list string) : js :=
  match path with
  | [] => v
  | k :: rest =>
      match v with
      | JUndefined | JNull => JUndefined
      | _ => lodash_get (read v k) rest
      end
  end.

(** [String(v)], as template literals and [+] with a string apply it;
    an object prints as a plain object does. *)
Fixpoint ToString (v : js) : string :=
  match v with
  | JUndefined => "undefined"
  | JNull => "null"
  | JBool b => if b then "true" else "false"
  | JNum n => pretty n
  | JStr s => s
  | JArr xs =>
      String.concat ","
        (map (fun x => match x with
                       | JUndefined | JNull => ""
                       | _ => ToString x
                       end) xs)
  | JObj _ => "[object Object]"
  | JFun _ => "function () { [native code] }"
  end.

(** *** [JSON.stringify] *)

Definition hex_digit (n : nat) : ascii :=
  nth n (list_ascii_of_string "0123456789abcdef") "0"%char.

Definition backslash : ascii := ascii_of_nat 92.
Definition dquote : ascii := ascii_of_nat 34.

Definition escape_char (c : ascii) : string :=
  let n := nat_of_ascii c in
  if (n =? 34)%nat then String backslash (String c "")
  else if (n =? 92)%nat then String backslash (String c "")
  else if (n =? 8)%nat then String backslash "b"
  else if (n =? 9)%nat then String backslash "t"
  else if (n =? 10)%nat then String backslash "n"
  else if (n =? 12)%nat then String backslash "f"
  else if (n =? 13)%nat then String backslash "r"
  else if (n <? 32)%nat then
    String backslash "u00"
      +:+ String (hex_digit (n / 16)) (String (hex_digit (n mod 16)) "")
  else String c "".

Definition quote (s : string) : string :=
  String dquote (String.concat "" (map escape_char (list_ascii_of_string s)))
    +:+ String dquote "".

Fixpoint mapM {A B} (f : A -> outcome B) (l : list A) : outcome (list B) :=
  match l with
  | [] => Returns []
  | a :: l => b ← f a; bs ← mapM f l; Returns (b :: bs)
  end.

(** The serialization of one property value; [None] stands for the
    undefined that [JSON.stringify] answers for undefined and for
    functions. A [toJSON] method of an object is called first. The
    recursion is bounded by [fuel]. *)
Fixpoint stringify (fuel : nat) (v : js) : outcome (option string) :=
  match fuel with
  | O => Throws
  | S fuel =>
      v ← match v with
          | JObj fields =>
              match field "toJSON" fields with
              | JFun r => call (JFun r)
              | _ => Returns v
              end
          | _ => Returns v
          end;
      match v with
      | JUndefined | JFun _ => Returns None
      | JNull => Returns (Some "null")
      | JBool b => Returns (Some (if b then "true" else "false"))
      | JNum n => Returns (Some (pretty n))
      | JStr s => Returns (Some (quote s))
      | JArr xs =>
          parts ← mapM (fun x => r ← stringify fuel x;
                                 Returns (default "null" r)) xs;
          Returns (Some ("[" +:+ String.concat "," parts +:+ "]"))
      | JObj fields =>
          parts ← mapM (fun kv => r ← stringify fuel (snd kv);
                                  Returns (option_map (fun s => quote (fst kv) +:+ ":" +:+ s) r))
                       fields;
          Returns (Some ("{" +:+ String.concat "," (omap id parts) +:+ "}"))
      end
  end.

Fixpoint size (v : js) : nat :=
  match v with
  | JArr xs => S (list_sum (map size xs))
  | JObj fields => S (list_sum (map (fun kv => size (snd kv)) fields))
  | JFun (Some v) => S (size v)
  | _ => 1%nat
  end.

(** [JSON.stringify(v)]: a string, or undefined. *)
Definition JSON_stringify (v : js) : outcome js :=
  r ← stringify (size v) v;
  Returns (match r with Some s => JStr s | None => JUndefined end).

End Js.
Import Js.

#[global] Instance js_inhabited : Inhabited js := populate JUndefined.

(** ** The module [index.js] *)

Module Api.

Definition DOCUMENT_EXISTS : Z := 409.

(** What a handler did besides settling the promise: its calls to the
    logger, to the throttled [warning], and to [_filterResponse]. *)
Inductive event : Type :=
| logger_error (args : list js)
| warning
| filterResponse_called.

(** *** [parseError] *)

(** The inner [var err] is the outer one: after [err = err.toJSON()] the
    name stands for the serialization. *)
Definition parseError (err : js) : outcome js :=
  toJSON ← prop err "toJSON";
  if truthy toJSON then
    err ← call toJSON;
    msg ← prop err "msg";
    if truthy msg then Returns msg
    else
      json ← JSON_stringify err;
      Returns (JStr ("Unknown ES Error Format " +:+ ToString json))
  else
    stack ← prop err "stack";
    if truthy stack then Returns stack
    else
      response ← prop err "response";
      Returns (if truthy response then response else err).

(** *** [_filterResponse] *)

(** One entry of [results.items], read through [_.values(items[i])[0]]:
    the result stored under the action's key. *)
Record bulk_item : Type := { status : js; error : js }.

Record bulk_result : Type := { errors : bool; items : list bulk_item }.

(** The object [_filterResponse] returns; [reason] is undefined when the
    object is built without it. *)
Record filtered : Type := { data : list js; nonRetriableError : bool; reason : js }.

Definition is_num (v : js) (n : Z) : bool :=
  match v with
  | JNum m => m =? n
  | _ => false
  end.

(** The [for] loop, from index [i] on, with [retry] as accumulated. *)
Fixpoint filter_loop (data : list js) (items : list bulk_item) (i : nat)
    (retry : list js) : filtered :=
  match items with
  | [] => {| data := retry; nonRetriableError := false; reason := JUndefined |}
  | item :: rest =>
      if truthy (error item) then
        if is_num (status item) DOCUMENT_EXISTS then
          filter_loop data rest (S i) retry
        else if is_str (read (error item) "type") "es_rejected_execution_exception" then
          filter_loop data rest (S i)
            (if (i =? 0)%nat
             then retry ++ [data !!! 0%nat; data !!! 1%nat]
             else retry ++ [data !!! (i * 2)%nat; data !!! (i * 2 + 1)%nat])
        else if negb (is_str (read (error item) "type") "document_already_exists_exception")
                && negb (is_str (read (error item) "type") "document_missing_exception") then
          {| data := [];
             nonRetriableError := true;
             reason := JStr (ToString (read (error item) "type") +:+ "--"
                             +:+ ToString (read (error item) "reason")) |}
        else filter_loop data rest (S i) retry
      else filter_loop data rest (S i) retry
  end.

Definition _filterResponse (data : list js) (results : bulk_result) : filtered :=
  filter_loop data (items results) 0 [].

(** *** [retry] and the retry timer *)

Record timer : Type := { start : Z; limit : Z }.

(** [let retryTimer = {start: 5000, limit: 10000}] *)
Definition retryTimer : timer := {| start := 5000; limit := 10000 |}.

(** An integer as the binary64 number that holds it. *)
Definition number (z : Z) : float :=
  SF2Prim (binary_normalize prec emax z 0 false).

(** [Math.floor] of a finite number. *)
Definition Math_floor (x : float) : Z :=
  match Prim2SF x with
  | S754_finite s m e => Z.shiftl (if s then Z.neg m else Z.pos m) e
  | _ => 0
  end.

(** [retry(retryTimer, fn, data)], given the value [random] that
    [Math.random()] returns: the delay handed to [setTimeout] and the
    timer as the call leaves it. The fields of the timer are integers far
    below [2 ^ 53]: binary64 holds them, and their difference, exactly. *)
Definition retry (retryTimer : timer) (random : float) : Z * timer :=
  let timer :=
    Math_floor (random * number (limit retryTimer - start retryTimer)
                + number (start retryTimer))%float in
  let retryTimer :=
    if limit retryTimer <? 60000
    then {| start := start retryTimer; limit := limit retryTimer + 10000 |}
    else retryTimer in
  let retryTimer :=
    if start retryTimer <? 30000
    then {| start := start retryTimer + 5000; limit := limit retryTimer |}
    else retryTimer in
  (timer, retryTimer).

(** *** Promises and call chains *)

Inductive promise (V : Type) : Type :=
| Pending
| Resolved (value : V)
| Rejected (reason : js).
Arguments Pending {V}.
Arguments Resolved {V} value.
Arguments Rejected {V} reason.

(** What the client answers to one request. *)
Inductive answer (A : Type) : Type :=
| fulfilled (result : A)
| failed (err : js).
Arguments fulfilled {A} result.
Arguments failed {A} err.

(** What a handler does with the promise: [resolve(v)], [reject(r)],
    [retry(retryTimer, fn, q)] which reissues the request with [q], or
    neither, when it returns or raises without having called any. *)
Inductive effect (Q V : Type) : Type :=
| resolve (value : V)
| reject (reason : js)
| retry_with (request : Q)
| unsettled.
Arguments resolve {Q V} value.
Arguments reject {Q V} reason.
Arguments retry_with {Q V} request.
Arguments unsettled {Q V}.

Definition handler (Q A V : Type) : Type := Q -> answer A -> list event * effect Q V.

(** The state of one top-level call: its promise, its retry timer, the
    request whose answer is awaited (none once the promise is settled or
    a handler left it unsettled), and what happened so far: the requests
    handed to the client, the delays handed to [setTimeout], the events
    the handlers left. *)
Record chain (Q V : Type) : Type := {
  settled : promise V;
  backoff : timer;
  awaited : option Q;
  requests : list Q;
  timers : list Z;
  events : list event
}.
Arguments settled {Q V} c.
Arguments backoff {Q V} c.
Arguments awaited {Q V} c.
Arguments requests {Q V} c.
Arguments timers {Q V} c.
Arguments events {Q V} c.

(** [new Promise(...)] with a fresh timer and the first request issued. *)
Definition begin {Q V} (q : Q) : chain Q V :=
  {| settled := Pending; backoff := retryTimer; awaited := Some q;
     requests := [q]; timers := []; events := [] |}.

(** The client answers the awaited request; [random] is what
    [Math.random()] returns if the handler calls [retry]. *)
Definition step {Q A V} (handle : handler Q A V) (c : chain Q V)
    (input : answer A * float) : chain Q V :=
  match awaited c with
  | None => c
  | Some q =>
      let '(logged, eff) := handle q (fst input) in
      match eff with
      | resolve v =>
          {| settled := Resolved v; backoff := backoff c; awaited := None;
             requests := requests c; timers := timers c;
             events := events c ++ logged |}
      | reject r =>
          {| settled := Rejected r; backoff := backoff c; awaited := None;
             requests := requests c; timers := timers c;
             events := events c ++ logged |}
      | retry_with q' =>
          let '(delay, widened) := retry (backoff c) (snd input) in
          {| settled := settled c; backoff := widened; awaited := Some q';
             requests := requests c ++ [q']; timers := timers c ++ [delay];
             events := events c ++ logged |}
      | unsettled =>
          {| settled := settled c; backoff := backoff c; awaited := None;
             requests := requests c; timers := timers c;
             events := events c ++ logged |}
      end
  end.

Definition run {Q A V} (handle : handler Q A V) (c : chain Q V)
    (inputs : list (answer A * float)) : chain Q V :=
  fold_left (step handle) inputs c.

(** *** [_errorHandler] *)

(** The function [_errorHandler(fn, data, reject, logger)] returns, applied
    to [err]; its [retryTimer] is the [backoff] of the chain. *)
Definition _errorHandler {Q V} (data : Q) (err : js) : list event * effect Q V :=
  if is_str (lodash_get err ["body"; "error"; "type"]) "es_rejected_execution_exception"
  then ([], retry_with data)
  else
    match parseError err with
    | Returns errMsg => ([logger_error [errMsg]], reject errMsg)
    | Throws => ([], unsettled)
    end.

(** *** [search] and [count] *)

Record shard_failure : Type := { reason_type : string }.
Record shards : Type := { shards_failed : Z; failures : list shard_failure }.
Record hit : Type := { _source : js }.
Record hits : Type := { total : js; hits_hits : list hit }.
Record search_response : Type := { _shards : shards; response_hits : hits }.

(** [_.uniq]: the first occurrence of each value, in order. *)
Fixpoint uniq_from (seen l : list string) : list string :=
  match l with
  | [] => []
  | x :: l =>
      if bool_decide (x ∈ seen) then uniq_from seen l
      else x :: uniq_from (x :: seen) l
  end.

Definition uniq (l : list string) : list string := uniq_from [] l.

(** The values [_.every] visits in a collection. *)
Definition elements (collection : js) : list js :=
  match collection with
  | JArr xs => xs
  | JObj fields => map snd fields
  | JStr s => map (fun c => JStr (String c "")) (list_ascii_of_string s)
  | _ => []
  end.

Fixpoint every (predicate : js -> outcome bool) (l : list js) : outcome bool :=
  match l with
  | [] => Returns true
  | x :: l =>
      match predicate x with
      | Returns true => every predicate l
      | Returns false => Returns false
      | Throws => Throws
      end
  end.

(** A heap of query descriptors: [search] and [count] receive a
    reference, the one their caller holds and the client is handed. *)
Abbreviation ref := positive (only parsing).
Abbreviation object := (gmap string js) (only parsing).
Abbreviation heap := (gmap positive (gmap string js)) (only parsing).

(** The function given to [.then] in [searchES]; [value] is what the
    promise resolves with when no shard failed. *)
Definition searchES_then {Q V} (value : search_response -> V) (query : Q)
    (data : search_response) : list event * effect Q V :=
  if 0 <? shards_failed (_shards data) then
    let reasons := uniq (map reason_type (failures (_shards data))) in
    if (1 <? length reasons)%nat
       || negb (match reasons with
                | r :: _ => String.eqb r "es_rejected_execution_exception"
                | [] => false
                end) then
      let errorReason := String.concat " | " reasons in
      ([logger_error [JStr "Not all shards returned successful, shard errors: ";
                      JStr errorReason]],
       reject (JStr errorReason))
    else ([], retry_with query)
  else ([], resolve (value data)).

(** The function given to [.catch] in [searchES]. *)
Definition searchES_catch {Q V} (err : js) : list event * effect Q V :=
  let rejected :=
    match parseError err with
    | Returns errMsg => ([logger_error [errMsg]], reject errMsg)
    | Throws => ([], unsettled)
    end in
  if is_str (lodash_get err ["body"; "error"; "type"]) "reduce_search_phase_exception" then
    let retriableError :=
      body ← prop err "body";
      error ← prop body "error";
      root_cause ← prop error "root_cause";
      every (fun shard =>
               type ← prop shard "type";
               Returns (is_str type "es_rejected_execution_exception"))
            (elements root_cause) in
    match retriableError with
    | Returns true => rejected
    | Returns false => ([], unsettled)
    | Throws => ([], unsettled)
    end
  else rejected.

Definition searchES {Q V} (value : search_response -> V) : handler Q search_response V :=
  fun query a =>
    match a with
    | fulfilled data => searchES_then value query data
    | failed err => searchES_catch err
    end.

(** [count(query)]: the assignment [query.size = 0] on the caller's
    object, then the chain of [client.search(query)] calls. *)
Definition count (query : ref) (h : heap) : heap * chain ref js :=
  (alter (insert "size" (JNum 0)) query h, begin query).

Definition count_handler : handler ref search_response js :=
  searchES (fun data => total (response_hits data)).

(** What [search] resolves with: the response itself under
    [config.full_response], the documents of its hits otherwise. *)
Inductive found : Type :=
| full_response (data : search_response)
| documents (sources : list js).

Definition search (query : ref) (h : heap) : heap * chain ref found :=
  (h, begin query).

Definition search_handler (config_full_response : bool)
  : handler ref search_response found :=
  searchES (fun data =>
              if config_full_response then full_response data
              else documents (map _source (hits_hits (response_hits data)))).

(** *** The point operations *)

(** The exception a property read of undefined or null raises inside a
    [.then] callback, as the [.catch] that follows receives it: an Error
    object with a stack, whose text is the engine's. *)
Definition TypeError : js := JObj [("stack", JStr "TypeError")].

(** [client.method(query).then(result => resolve(value)).catch(errHandler)]
    with [errHandler = _errorHandler(fn, query, reject, logger)]. *)
Definition point (value : js -> js -> outcome js) : handler js js js :=
  fun query a =>
    match a with
    | fulfilled result =>
        match value query result with
        | Returns v => ([], resolve v)
        | Throws => _errorHandler query TypeError
        end
    | failed err => _errorHandler query err
    end.

Definition index : handler js js js :=
  point (fun query result => Returns result).


(** *** [bulkSend] *)

Definition sendData_then (data : list js) (results : bulk_result)
  : list event * effect (list js) bulk_result :=
  if errors results then
    let response := _filterResponse data results in
    if nonRetriableError response then
      ([filterResponse_called], reject (reason response))
    else if (length (Api.data response) =? 0)%nat then
      ([filterResponse_called], resolve results)
    else ([filterResponse_called; warning], retry_with (Api.data response))
  else ([], resolve results).

Definition sendData_catch (err : js) : list event * effect (list js) bulk_result :=
  match parseError err with
  | Returns errMsg =>
      let message := JStr ("bulk sender error: " +:+ ToString errMsg) in
      ([logger_error [message]], reject message)
  | Throws => ([], unsettled)
  end.

Definition bulkSend : handler (list js) bulk_result bulk_result :=
  fun data a =>
    match a with
    | fulfilled results => sendData_then data results
    | failed err => sendData_catch err
    end.

End Api.
Import Api.

(** ** Vocabulary of the properties *)

Definition REJECTED : string := "es_rejected_execution_exception".

(** The three ways [_filterResponse] treats an item that carries an error. *)
Definition item_type (item : bulk_item) : js := read (error item) "type".

Definition conflict (item : bulk_item) : bool := is_num (status item) 409.

Definition retriable (item : bulk_item) : bool :=
  truthy (error item) && negb (conflict item) && is_str (item_type item) REJECTED.

Definition ignorable (item : bulk_item) : bool :=
  truthy (error item)
  && (conflict item
      || is_str (item_type item) "document_already_exists_exception"
      || is_str (item_type item) "document_missing_exception").

Definition fatal (item : bulk_item) : bool :=
  truthy (error item) && negb (conflict item)
  && negb (is_str (item_type item) REJECTED)
  && negb (is_str (item_type item) "document_already_exists_exception")
  && negb (is_str (item_type item) "document_missing_exception").

(** [`${item.error.type}--${item.error.reason}`] *)
Definition fatal_reason (item : bulk_item) : js :=
  JStr (ToString (read (error item) "type") +:+ "--"
        +:+ ToString (read (error item) "reason")).

(** The request pair of the item at index [i]. *)
Definition pair_of (data : list js) (i : nat) : list js :=
  [data !!! (2 * i)%nat; data !!! (2 * i + 1)%nat].

(** The pairs of the retriable items, by index, in order. *)
Definition retry_set (data : list js) (items : list bulk_item) : list js :=
  concat (imap (fun i item => if retriable item then pair_of data i else []) items).

(** A client error whose body names the backpressure rejection. *)
Definition backpressure (err : js) : bool :=
  is_str (lodash_get err ["body"; "error"; "type"]) REJECTED.

Definition nullish (v : js) : bool :=
  match v with
  | JUndefined | JNull => true
  | _ => false
  end.

(** Data without function values. *)
Fixpoint plain (v : js) : bool :=
  match v with
  | JArr xs => forallb plain xs
  | JObj fields => forallb (fun kv => plain (snd kv)) fields
  | JFun _ => false
  | _ => true
  end.

(** The error values [parseError] can read: neither null nor undefined,
    and with a [toJSON] that, when truthy, is a function returning a value
    that is neither null nor undefined and either carries a truthy [msg]
    or goes through [JSON.stringify]. *)
Definition readable (err : js) : bool :=
  negb (nullish err)
  && (if truthy (read err "toJSON") then
        match call (read err "toJSON") with
        | Returns v =>
            negb (nullish v)
            && (truthy (read v "msg") || returns (JSON_stringify v))
        | Throws => false
        end
      else true).

(** The successive uses of one timer: for each value drawn, the timer as
    [retry] found it and the delay [retry] computed. *)
Fixpoint uses (t : timer) (randoms : list float) : list (timer * Z) :=
  match randoms with
  | [] => []
  | random :: randoms => (t, fst (retry t random)) :: uses (snd (retry t random)) randoms
  end.

(** The timer after [n] uses. *)
Fixpoint widened (n : nat) (t : timer) : timer :=
  match n with
  | O => t
  | S n => widened n (snd (retry t 0%float))
  end.

(** The reason types of the shard failures a response reports. *)
Definition failure_types (data : search_response) : list string :=
  map reason_type (failures (_shards data)).

(** What the client is handed at each call of a chain of [search] or
    [count]: the object the reference leads to in the heap. *)
Definition handed (h : gmap positive (gmap string js)) {V} (c : chain positive V)
  : list (option (gmap string js)) :=
  map (fun query => h !! query) (requests c).


(** ** Sample values *)

(** A bulk body of three index actions, and items as Elasticsearch
    reports them. *)
Definition action (id : Z) : js := JObj [("index", JObj [("_id", JNum id)])].
Definition document (f : Z) : js := JObj [("f", JNum f)].

Definition sample_body : list js :=
  [action 1; document 1; action 2; document 2; action 3; document 3].

Definition item_created : bulk_item :=
  {| status := JNum 201; error := JUndefined |}.

Definition item_rejected : bulk_item :=
  {| status := JNum 429;
     error := JObj [("type", JStr "es_rejected_execution_exception");
                    ("reason", JStr "rejected execution of bulk")] |}.

Definition item_conflict : bulk_item :=
  {| status := JNum 409;
     error := JObj [("type", JStr "version_conflict_engine_exception");
                    ("reason", JStr "version conflict")] |}.

Definition item_missing : bulk_item :=
  {| status := JNum 404;
     error := JObj [("type", JStr "document_missing_exception");
                    ("reason", JStr "document missing")] |}.

Definition item_unparsed : bulk_item :=
  {| status := JNum 400;
     error := JObj [("type", JStr "mapper_parsing_exception");
                    ("reason", JStr "failed to parse")] |}.

(** Errors as the client raises them. *)
Definition error_of (type : string) (root_cause : list string) : js :=
  JObj [("stack", JStr ("Error: [" +:+ type +:+ "]"));
        ("body",
         JObj [("error",
                JObj [("type", JStr type);
                      ("root_cause",
                       JArr (map (fun t => JObj [("type", JStr t)]) root_cause))])])].

Definition error_rejected : js := error_of "es_rejected_execution_exception" [].

Definition error_not_found : js :=
  JObj [("toJSON", JFun (Some (JObj [("msg", JStr "[index_not_found_exception] no such index");
                                     ("statusCode", JNum 404)])));
        ("stack", JStr "Error: [index_not_found_exception] no such index")].

Definition error_timeout : js :=
  JObj [("message", JStr "Request Timeout after 30000ms");
        ("stack", JStr "Error: Request Timeout after 30000ms")].

Definition error_reduce_mixed : js :=
  error_of "reduce_search_phase_exception"
    ["es_rejected_execution_exception"; "query_shard_exception"].

Definition error_reduce_rejected : js :=
  error_of "reduce_search_phase_exception"
    ["es_rejected_execution_exception"; "es_rejected_execution_exception"].

Definition response_with_failures (types : list string) : search_response :=
  {| _shards := {| shards_failed := Z.of_nat (length types);
                   failures := map (fun t => {| reason_type := t |}) types |};
     response_hits := {| total := JNum 0; hits_hits := [] |} |}.

Definition sample_query : gmap string js :=
  {[ "index" := JStr "logs"; "size" := JNum 100 ]}.

Definition sample_heap : gmap positive (gmap string js) :=
  {[ 1%positive := sample_query ]}.

(** ** Query building, index and version checks *)

(** *** [Number] of a string *)

(** A string is read as a sequence of code units below 256. The white
    space and line terminators among them: TAB, LF, VT, FF, CR, SP, NBSP. *)
Definition is_white (c : ascii) : bool :=
  bool_decide (nat_of_ascii c ∈ [9; 10; 11; 12; 13; 32; 160]%nat).

Fixpoint skip_white (l : list ascii) : list ascii :=
  match l with
  | c :: rest => if is_white c then skip_white rest else l
  | [] => []
  end.

Definition trim (l : list ascii) : list ascii :=
  rev (skip_white (rev (skip_white l))).

(** The value of a digit, decimal or hexadecimal, and of a digit in a
    given base. *)
Definition digit_of (c : ascii) : option Z :=
  let n := Z.of_nat (nat_of_ascii c) in
  if (48 <=? n) && (n <=? 57) then Some (n - 48)
  else if (97 <=? n) && (n <=? 102) then Some (n - 87)
  else if (65 <=? n) && (n <=? 70) then Some (n - 55)
  else None.

Definition digit (base : Z) (c : ascii) : option Z :=
  match digit_of c with
  | Some d => if d <? base then Some d else None
  | None => None
  end.

(** The longest prefix of decimal digits, and what follows it. *)
Fixpoint span_digits (l : list ascii) : list Z * list ascii :=
  match l with
  | [] => ([], [])
  | c :: rest =>
      match digit 10 c with
      | Some d => let '(ds, rest) := span_digits rest in (d :: ds, rest)
      | None => ([], l)
      end
  end.

Definition value_of (base : Z) (ds : list Z) : Z :=
  fold_left (fun acc d => base * acc + d) ds 0.

(** The digits of a literal made of digits only, and of one at least. *)
Fixpoint digits_only (base : Z) (l : list ascii) : option (list Z) :=
  match l with
  | [] => Some []
  | c :: rest =>
      match digit base c, digits_only base rest with
      | Some d, Some ds => Some (d :: ds)
      | _, _ => None
      end
  end.

Definition integer_literal (base : Z) (l : list ascii) : option Z :=
  match l with
  | [] => None
  | _ => option_map (value_of base) (digits_only base l)
  end.

(** [ExponentPart], when there is one; the literal ends with it. *)
Definition exponent_part (l : list ascii) : option Z :=
  match l with
  | [] => Some 0
  | c :: rest =>
      if bool_decide (c = "e"%char) || bool_decide (c = "E"%char) then
        let '(negative, rest) :=
          match rest with
          | s :: rest' =>
              if bool_decide (s = "+"%char) then (false, rest')
              else if bool_decide (s = "-"%char) then (true, rest')
              else (false, rest)
          | [] => (false, rest)
          end in
        match span_digits rest with
        | (d :: ds, []) =>
            Some (if negative then - value_of 10 (d :: ds) else value_of 10 (d :: ds))
        | _ => None
        end
      else None
  end.

(** [StrUnsignedDecimalLiteral] but for [Infinity]: the digits without
    the point, and the power of ten that scales them. *)
Definition unsigned_decimal (l : list ascii) : option (Z * Z) :=
  let '(int, rest) := span_digits l in
  let '(frac, rest) :=
    match rest with
    | c :: rest' => if bool_decide (c = "."%char) then span_digits rest' else ([], rest)
    | [] => ([], rest)
    end in
  match int ++ frac with
  | [] => None
  | ds =>
      match exponent_part rest with
      | Some e => Some (value_of 10 ds, e - Z.of_nat (length frac))
      | None => None
      end
  end.

(** The binary64 number nearest to [m * 10 ^ e], ties to even, as the
    engine rounds a decimal literal: the integer rounded when the
    exponent is not negative, the quotient of two integers otherwise. *)
Definition scaled (negative : bool) (m e : Z) : float :=
  match m with
  | Z.pos p =>
      if 0 <=? e then
        SF2Prim (binary_normalize prec emax
                   (if negative then - (m * 10 ^ e) else m * 10 ^ e) 0 false)
      else
        SF2Prim (SFdiv prec emax (S754_finite negative p 0)
                   (S754_finite false (Z.to_pos (10 ^ (- e))) 0))
  | _ => if negative then (-0)%float else 0%float
  end.

Definition signed_decimal (negative : bool) (l : list ascii) : float :=
  if bool_decide (l = list_ascii_of_string "Infinity") then
    if negative then neg_infinity else infinity
  else
    match unsigned_decimal l with
    | Some (m, e) => scaled negative m e
    | None => nan
    end.

(** [Number(str)] for a string, after the grammar of numeric strings:
    white space around the literal is dropped; the empty literal is 0; a
    binary, octal or hexadecimal integer takes no sign; a decimal literal
    has digits, a point and an exponent, or is [Infinity], with a sign
    or not; what is no literal is NaN. *)
Definition StringToNumber (str : string) : float :=
  match trim (list_ascii_of_string str) with
  | [] => 0%float
  | c :: rest =>
      let radix :=
        match rest with
        | r :: _ =>
            if negb (bool_decide (c = "0"%char)) then None
            else if bool_decide (r = "x"%char) || bool_decide (r = "X"%char) then Some 16
            else if bool_decide (r = "o"%char) || bool_decide (r = "O"%char) then Some 8
            else if bool_decide (r = "b"%char) || bool_decide (r = "B"%char) then Some 2
            else None
        | [] => None
        end in
      match radix with
      | Some base =>
          match integer_literal base (tail rest) with
          | Some n => number n
          | None => nan
          end
      | None =>
          if bool_decide (c = "+"%char) then signed_decimal false rest
          else if bool_decide (c = "-"%char) then signed_decimal true rest
          else signed_decimal false (c :: rest)
      end
  end.

(** [str.replace(/\./g, '')] *)
Definition without_dots (str : string) : string :=
  string_of_list_ascii
    (filter (fun c => c <> "."%char) (list_ascii_of_string str)).

(** *** [_checkVersion] *)

Definition _checkVersion (str : string) : bool :=
  let num := StringToNumber (without_dots str) in
  (210 <=? num)%float.

(** *** [buildQuery] *)

(** [dateObj[date_field_name] = value] on the empty object: the key is the
    name turned into a string; under [__proto__] the assignment sets the
    prototype and leaves the object without own property. *)
Definition keyed (name value : js) : js :=
  if String.eqb (ToString name) "__proto__" then JObj []
  else JObj [(ToString name, value)].

(** The properties read of [opConfig] and of [msg] ([start], [end], [key],
    [count], [index], [fields], [query], [date_field_name]) are defined on
    no primitive, array or function. *)
Definition _buildRangeQuery (opConfig msg : js) : outcome js :=
  let must := [] in
  start ← prop msg "start";
  end_ ← prop msg "end";
  must ← (if truthy start && truthy end_ then
            date_field_name ← prop opConfig "date_field_name";
            let dateObj := keyed date_field_name (JObj [("gte", start); ("lt", end_)]) in
            Returns (must ++ [JObj [("range", dateObj)]])
          else Returns must);
  key ← prop msg "key";
  must ← Returns (if truthy key
                  then must ++ [JObj [("wildcard", JObj [("_uid", key)])]]
                  else must);
  query ← prop opConfig "query";
  must ← Returns (if truthy query
                  then must ++ [JObj [("query_string", JObj [("query", query)])]]
                  else must);
  Returns (JObj [("query", JObj [("bool", JObj [("must", JArr must)])])]).

Definition buildQuery (opConfig msg : js) : outcome js :=
  index ← prop opConfig "index";
  size ← prop msg "count";
  body ← _buildRangeQuery opConfig msg;
  let query := [("index", index); ("size", size); ("body", body)] in
  fields ← prop opConfig "fields";
  Returns (JObj (if truthy fields then query ++ [("_source", fields)] else query)).

(** *** [verifyIndex] *)

(** The names [Object.prototype] defines. *)
Definition Object_prototype : list string :=
  ["constructor"; "__defineGetter__"; "__defineSetter__"; "hasOwnProperty";
   "__lookupGetter__"; "__lookupSetter__"; "isPrototypeOf"; "propertyIsEnumerable";
   "toString"; "valueOf"; "__proto__"; "toLocaleString"].

Fixpoint own (key : string) (fields : list (string * js)) : option js :=
  match fields with
  | [] => None
  | (k, v) :: rest => if String.eqb k key then Some v else own key rest
  end.

(** [object[key]] for an object made by a literal or by [JSON.parse],
    under any key: its own property, else the one it inherits from
    [Object.prototype], a function (none is called here) or, under
    [__proto__], the prototype itself, of which only [settings] would be
    read, that it lacks. *)
Definition member (fields : list (string * js)) (key : string) : js :=
  match own key fields with
  | Some v => v
  | None =>
      if String.eqb key "__proto__" then JObj []
      else if bool_decide (key ∈ Object_prototype) then JFun None
      else JUndefined
  end.

(** [value.settings.index.max_result_window ? ... : 10000] *)
Definition windowSize (value : js) : outcome js :=
  settings ← prop value "settings";
  index ← prop settings "index";
  max_result_window ← prop index "max_result_window";
  Returns (if truthy max_result_window then max_result_window else JNum 10000).

(** [{name: name, windowSize: windowSize}] *)
Definition window (name size : js) : js :=
  JObj [("name", name); ("windowSize", size)].

(** The callback of [_.forOwn] over the own properties from [fields] on,
    with [wasFound] and [results] as they stand. *)
Fixpoint forOwn (matches : string -> bool) (fields : list (string * js))
    (wasFound : bool) (results : list js) : outcome (bool * list js) :=
  match fields with
  | [] => Returns (wasFound, results)
  | (key, value) :: rest =>
      if matches key then
        size ← windowSize value;
        forOwn matches rest true (results ++ [window (JStr key) size])
      else forOwn matches rest wasFound results
  end.

Section Settings.

(** [RegExp(source)]: the pattern compiled, as the test [key.match(regex)
    !== null] of a key, or nothing when the source is no pattern and
    [RegExp] raises a SyntaxError. The regular expressions are the
    engine's. *)
Variable RegExp : string -> option (string -> bool).

(** The source [RegExp(name)] compiles: the name as a string, and the
    empty pattern for undefined. *)
Definition source (name : js) : string :=
  match name with
  | JUndefined => ""
  | _ => ToString name
  end.

Definition verifyIndex (indexObj : list (string * js)) (name : js) : outcome js :=
  match RegExp (source name) with
  | None => Throws
  | Some regex =>
      '(wasFound, results) ←
        (if truthy (member indexObj (ToString name)) then
           size ← windowSize (member indexObj (ToString name));
           Returns (true, [window name size])
         else forOwn regex indexObj false []);
      Returns (JObj [("found", JBool wasFound); ("indexWindowSize", JArr results)])
  end.

(** *** [version] *)

(** The answer of [client.cluster.stats]: [data.nodes.versions], the
    versions of the nodes, as strings. *)
Record cluster_stats : Type := { nodes_versions : list string }.

Inductive client_call : Type :=
| cluster_stats_call
| indices_getSettings_call.

(** What one call of [version] did: its calls of the client, the messages
    it passed to [logger.warn], its calls of [logger.error], and the
    promise it returned, as settled. *)
Record checked : Type := {
  asked : list client_call;
  warned : list string;
  complained : list event;
  outcome_of : promise js
}.

Definition max_result_window_warning (ind : js) : string :=
  "max_result_window for index: " +:+ ToString (read ind "name")
  +:+ " is set at " +:+ ToString (read ind "windowSize")
  +:+ " . On very large indices it is possible that a slice can not be divided to stay below this limit. If that occurs an error will be thrown by Elasticsearch and the slice can not be processed. Increasing max_result_window in the Elasticsearch index settings will resolve the problem.".

(** [let config = _opConfig ? _opConfig : {}] *)
Definition config (_opConfig : js) : js :=
  if truthy _opConfig then _opConfig else JObj [].

(** The function given to [.then] after [client.indices.getSettings]:
    the messages warned, and how the promise of the [.then] settles. An
    exception of [verifyIndex] (the TypeError of a property read, the
    SyntaxError of [RegExp]) rejects it with the Error object. *)
Definition version_settings (_opConfig : js) (results : list (string * js))
  : list string * promise js :=
  match verifyIndex results (read (config _opConfig) "index") with
  | Returns index =>
      if truthy (read index "found") then
        (map max_result_window_warning (elements (read index "indexWindowSize")),
         Resolved JUndefined)
      else ([], Rejected (JStr "index specified in reader does not exist"))
  | Throws => ([], Rejected TypeError)
  end.

(** The function given to the [.catch] that follows, and how the promise
    of the [.catch] settles. *)
Definition version_catch (err : js) : list event * promise js :=
  match parseError err with
  | Returns errMsg => ([logger_error [errMsg]], Rejected errMsg)
  | Throws => ([], Rejected TypeError)
  end.

(** [version()], given what the client answers to [cluster.stats] and, if
    it is asked, to [indices.getSettings]. A failure of the first call
    skips the [.then] and rejects the promise as it is; with no version
    in the answer, [versions[0]] is undefined and [str.replace] raises. *)
Definition version (_opConfig : js) (stats : answer cluster_stats)
    (settings : answer (list (string * js))) : checked :=
  match stats with
  | failed err =>
      {| asked := [cluster_stats_call]; warned := []; complained := [];
         outcome_of := Rejected err |}
  | fulfilled data =>
      match nodes_versions data with
      | [] =>
          {| asked := [cluster_stats_call]; warned := []; complained := [];
             outcome_of := Rejected TypeError |}
      | first :: _ =>
          if _checkVersion first then
            let '(warnings, inner) :=
              match settings with
              | fulfilled results => version_settings _opConfig results
              | failed err => ([], Rejected err)
              end in
            let '(errors, outer) :=
              match inner with
              | Rejected err => version_catch err
              | _ => ([], inner)
              end in
            {| asked := [cluster_stats_call; indices_getSettings_call];
               warned := warnings; complained := errors; outcome_of := outer |}
          else
            {| asked := [cluster_stats_call]; warned := []; complained := [];
               outcome_of := Resolved JUndefined |}
      end
  end.

End Settings.

(** *** [putTemplate] *)

(** [client.indices.putTemplate({body: template, name: name})] followed by
    its [.then] and [.catch]. *)
Definition putTemplate_request (template name : js) : js :=
  JObj [("body", template); ("name", name)].

Definition putTemplate : handler js js js :=
  fun request a =>
    match a with
    | fulfilled results => ([], resolve results)
    | failed err =>
        match parseError err with
        | Returns errMsg => ([], reject errMsg)
        | Throws => ([], reject TypeError)
        end
    end.

(** *** Sample patterns and settings *)

(** A [RegExp] for sources free of metacharacters: such a pattern matches
    the keys in which it occurs. *)
Fixpoint occurs (pattern : string) (key : string) : bool :=
  String.prefix pattern key
  || match key with
     | String _ rest => occurs pattern rest
     | EmptyString => false
     end.

Definition literal_RegExp (source : string) : option (string -> bool) :=
  Some (occurs source).

Definition settings_of (max_result_window : js) : js :=
  JObj [("settings", JObj [("index", JObj [("max_result_window", max_result_window)])])].

Definition sample_settings : list (string * js) :=
  [("logs-2017.01", settings_of (JStr "50000"));
   ("events", settings_of JUndefined);
   ("logs-2017.02", settings_of JUndefined)].

(** ** The bulk classifier *)

Section Classifier.

Variable data : list js.

Lemma pair_of_source (i : nat) :
  pair_of data i = [data !!! (i * 2)%nat; data !!! (i * 2 + 1)%nat].
Proof. unfold pair_of. by rewrite (Nat.mul_comm 2 i). Qed.

(** The branch of the source taken at index 0 pushes the same pair as
    the general branch. *)
Lemma pushed_pair (i : nat) (retry : list js) :
  (if (i =? 0)%nat
   then retry ++ [data !!! 0%nat; data !!! 1%nat]
   else retry ++ [data !!! (i * 2)%nat; data !!! (i * 2 + 1)%nat])
  = retry ++ pair_of data i.
Proof.
  destruct (Nat.eqb_spec i 0) as [->|_]; [done|]. by rewrite pair_of_source.
Qed.

(** An item that carries an error falls in one of the three classes. *)
Lemma classes_cover (item : bulk_item) :
  truthy (error item) = true ->
  retriable item || ignorable item || fatal item = true.
Proof.
  unfold retriable, ignorable, fatal. intros ->.
  destruct (conflict item), (is_str (item_type item) REJECTED),
    (is_str (item_type item) "document_already_exists_exception"),
    (is_str (item_type item) "document_missing_exception"); reflexivity.
Qed.

(** One turn of the loop, by the class of the item. *)
Lemma filter_loop_fatal item rest i retry :
  fatal item = true ->
  filter_loop data (item :: rest) i retry
  = {| Api.data := []; nonRetriableError := true; reason := fatal_reason item |}.
Proof.
  unfold fatal, conflict, item_type, REJECTED, fatal_reason, DOCUMENT_EXISTS.
  cbn [filter_loop]. unfold DOCUMENT_EXISTS.
  destruct (truthy (error item)), (is_num (status item) 409),
    (is_str (read (error item) "type") "es_rejected_execution_exception"),
    (is_str (read (error item) "type") "document_already_exists_exception"),
    (is_str (read (error item) "type") "document_missing_exception");
    cbn; intros; congruence.
Qed.

Lemma filter_loop_step item rest i retry :
  fatal item = false ->
  filter_loop data (item :: rest) i retry
  = filter_loop data rest (S i)
      (retry ++ if retriable item then pair_of data i else []).
Proof.
  unfold fatal, retriable, conflict, item_type, REJECTED.
  cbn [filter_loop]. unfold DOCUMENT_EXISTS. rewrite pushed_pair.
  destruct (truthy (error item)), (is_num (status item) 409),
    (is_str (read (error item) "type") "es_rejected_execution_exception"),
    (is_str (read (error item) "type") "document_already_exists_exception"),
    (is_str (read (error item) "type") "document_missing_exception");
    cbn; rewrite ?app_nil_r; intros; congruence.
Qed.

(** The loop over items none of which is fatal. *)
Lemma filter_loop_no_fatal items i retry :
  Forall (fun item => fatal item = false) items ->
  filter_loop data items i retry
  = {| Api.data :=
         retry ++ concat (imap (fun j item =>
                                  if retriable item then pair_of data (i + j) else [])
                               items);
       nonRetriableError := false;
       reason := JUndefined |}.
Proof.
  intros H. revert i retry.
  induction H as [|item items Hitem _ IH]; intros i retry.
  - cbn. by rewrite app_nil_r.
  - rewrite filter_loop_step by done. rewrite IH. cbn [imap concat].
    rewrite Nat.add_0_r, <- app_assoc. do 4 f_equal.
    apply imap_ext. intros j x _. cbn. by rewrite Nat.add_succ_r.
Qed.

(** The loop stops at the first fatal item. *)
Lemma filter_loop_first_fatal before item after i retry :
  Forall (fun item => fatal item = false) before ->
  fatal item = true ->
  filter_loop data (before ++ item :: after) i retry
  = {| Api.data := []; nonRetriableError := true; reason := fatal_reason item |}.
Proof.
  intros H Hitem. revert i retry.
  induction H as [|x before Hx _ IH]; intros i retry; cbn [app].
  - by apply filter_loop_fatal.
  - rewrite filter_loop_step by done. apply IH.
Qed.

End Classifier.

(** ** The error normalizer *)

Section Normalizer.

Lemma prop_returns (v : js) (k : string) :
  nullish v = false -> prop v k = Returns (read v k).
Proof. by destruct v. Qed.

Lemma truthy_not_nullish (v : js) : truthy v = true -> nullish v = false.
Proof. by destruct v. Qed.

(** [parseError] after its first test, when [err] exposes no [toJSON]. *)
Lemma parseError_plain (err : js) :
  nullish err = false ->
  truthy (read err "toJSON") = false ->
  parseError err
  = Returns (if truthy (read err "stack") then read err "stack"
             else if truthy (read err "response") then read err "response"
             else err).
Proof.
  intros Herr HtoJSON. unfold parseError.
  rewrite !(prop_returns err) by done. cbn. rewrite HtoJSON.
  by destruct (truthy (read err "stack")).
Qed.

(** [parseError] when [err] exposes a [toJSON] that returns [v]. *)
Lemma parseError_structured (err v : js) :
  nullish err = false ->
  truthy (read err "toJSON") = true ->
  call (read err "toJSON") = Returns v ->
  nullish v = false ->
  parseError err
  = if truthy (read v "msg") then Returns (read v "msg")
    else json ← JSON_stringify v;
         Returns (JStr ("Unknown ES Error Format " +:+ ToString json)).
Proof.
  intros Herr HtoJSON Hcall Hv. unfold parseError.
  rewrite !(prop_returns err) by done. cbn. rewrite HtoJSON, Hcall. cbn.
  rewrite (prop_returns v) by done. reflexivity.
Qed.

(** [parseError] returns exactly on the [readable] values. *)
Lemma parseError_returns (err : js) : returns (parseError err) = readable err.
Proof.
  unfold readable. destruct (nullish err) eqn:Herr.
  { by destruct err. }
  destruct (truthy (read err "toJSON")) eqn:HtoJSON; cbn.
  - destruct (call (read err "toJSON")) as [v|] eqn:Hcall.
    + destruct (nullish v) eqn:Hv; cbn.
      * unfold parseError. rewrite !(prop_returns err) by done. cbn.
        rewrite HtoJSON, Hcall. cbn. by destruct v.
      * rewrite (parseError_structured err v) by done.
        destruct (truthy (read v "msg")); [done|]. cbn.
        by destruct (JSON_stringify v).
    + unfold parseError. rewrite !(prop_returns err) by done. cbn.
      by rewrite HtoJSON, Hcall.
  - rewrite parseError_plain by done. reflexivity.
Qed.

Lemma readable_returns (err : js) :
  readable err = true -> exists errMsg, parseError err = Returns errMsg.
Proof.
  rewrite <- parseError_returns. destruct (parseError err); [eauto|done].
Qed.

(** On every other value [parseError] raises. *)
Lemma parseError_raises (err : js) :
  readable err = false -> parseError err = Throws.
Proof.
  rewrite <- parseError_returns. by destruct (parseError err).
Qed.

(** [JSON.stringify] on plain data *)

Lemma size_positive (v : js) : (1 <= size v)%nat.
Proof. destruct v as [| | | | | | |[]]; simpl; lia. Qed.

Lemma list_sum_elem {A} (f : A -> nat) (x : A) (l : list A) :
  x ∈ l -> (f x <= list_sum (map f l))%nat.
Proof. induction 1; unfold list_sum in *; cbn; lia. Qed.

Lemma field_plain (k : string) (fields : list (string * js)) :
  forallb (fun kv => plain (snd kv)) fields = true -> plain (field k fields) = true.
Proof.
  induction fields as [|[k' v] fields IH]; [done|]. cbn.
  intros [Hv Hfields]%andb_prop. destruct (String.eqb k' k); auto.
Qed.

Lemma mapM_returns {A B} (f : A -> outcome B) (l : list A) :
  Forall (fun a => returns (f a) = true) l -> returns (mapM f l) = true.
Proof.
  induction 1 as [|a l Ha _ IH]; [done|]. cbn.
  destruct (f a); [|done]. cbn. by destruct (mapM f l).
Qed.

(** With fuel for its size, the serialization of plain data returns. *)
Lemma stringify_plain (fuel : nat) (v : js) :
  (size v <= fuel)%nat -> plain v = true -> returns (stringify fuel v) = true.
Proof.
  revert v. induction fuel as [|fuel IH]; intros v Hsize Hplain.
  { pose proof (size_positive v). lia. }
  destruct v as [| |b|n|s|xs|fields|f]; try done.
  - cbn -[mapM]. cbn in Hplain, Hsize.
    assert (returns (mapM (fun x => r ← stringify fuel x; Returns (default "null" r)) xs)
            = true) as Hparts.
    { apply mapM_returns. apply Forall_forall. intros x Hx.
      assert (returns (stringify fuel x) = true) as Hr.
      { apply IH.
        - assert (size x <= list_sum (map size xs))%nat; [|lia].
          by apply (list_sum_elem size).
        - rewrite forallb_forall in Hplain. apply Hplain. by apply list_elem_of_In. }
      by destruct (stringify fuel x). }
    by destruct (mapM _ xs).
  - cbn in Hplain, Hsize. cbn -[mapM].
    pose proof (field_plain "toJSON" fields Hplain) as HtoJSON.
    destruct (field "toJSON" fields) eqn:Hfield; try done; cbn -[mapM];
      match goal with
      | |- context [mapM ?f fields] =>
          assert (returns (mapM f fields) = true) as Hparts;
          [|by destruct (mapM f fields)]
      end;
      apply mapM_returns; apply Forall_forall; intros [k x] Hx; cbn;
      (assert (returns (stringify fuel x) = true) as Hr;
       [apply IH;
        [assert (size x <= list_sum (map (fun kv => size (snd kv)) fields))%nat;
         [by apply (list_sum_elem (fun kv => size (snd kv)) (k, x))|lia]
        |rewrite forallb_forall in Hplain;
         by apply (Hplain (k, x)), list_elem_of_In]
       |by destruct (stringify fuel x)]).
Qed.

Lemma JSON_stringify_plain (v : js) :
  plain v = true -> returns (JSON_stringify v) = true.
Proof.
  intros Hplain. unfold JSON_stringify.
  pose proof (stringify_plain (size v) v (le_n _) Hplain).
  by destruct (stringify (size v) v).
Qed.

(** Two sufficient conditions for an error value to be readable: it
    exposes no [toJSON]; or its [toJSON] returns plain data. *)
Lemma readable_without_toJSON (err : js) :
  nullish err = false -> truthy (read err "toJSON") = false -> readable err = true.
Proof. unfold readable. by intros -> ->. Qed.

Lemma readable_with_plain_serialization (err v : js) :
  nullish err = false ->
  call (read err "toJSON") = Returns v ->
  nullish v = false -> plain v = true ->
  readable err = true.
Proof.
  unfold readable. intros -> Hcall Hv Hplain. rewrite Hcall, Hv. cbn.
  rewrite JSON_stringify_plain by done. rewrite orb_true_r.
  by destruct (truthy (read err "toJSON")).
Qed.

End Normalizer.

(** C8, as the code has it. [parseError] returns, without raising, on
    every error value that is neither null nor undefined and whose
    [toJSON], when truthy, is a function that returns a value other than
    null and undefined which carries a truthy [msg] or which
    [JSON.stringify] serializes (on every other value it raises, see
    [parseError_raises]). Where it returns it follows the priority order:
    the [msg] of the structured serialization when truthy, else the tagged
    string embedding the serialized form, else, without [toJSON], the
    stack when truthy, else the response when truthy, else the raw error
    value itself. *)
Theorem parseError_priority_order (err : js) :
  readable err = true ->
  (exists errMsg, parseError err = Returns errMsg)
  /\ (forall v, truthy (read err "toJSON") = true ->
                call (read err "toJSON") = Returns v ->
        (truthy (read v "msg") = true -> parseError err = Returns (read v "msg"))
        /\ (truthy (read v "msg") = false ->
            exists json, JSON_stringify v = Returns json
              /\ parseError err
                 = Returns (JStr ("Unknown ES Error Format " +:+ ToString json))))
  /\ (truthy (read err "toJSON") = false ->
        (truthy (read err "stack") = true -> parseError err = Returns (read err "stack"))
        /\ (truthy (read err "stack") = false ->
            truthy (read err "response") = true ->
            parseError err = Returns (read err "response"))
        /\ (truthy (read err "stack") = false ->
            truthy (read err "response") = false ->
            parseError err = Returns err)).
Proof.
  intros Hreadable. split; [by apply readable_returns|].
  unfold readable in Hreadable.
  apply andb_prop in Hreadable as [Herr Hjson].
  apply negb_true_iff in Herr. split.
  - intros v HtoJSON Hcall. rewrite HtoJSON, Hcall in Hjson.
    apply andb_prop in Hjson as [Hv Hjson]. apply negb_true_iff in Hv.
    rewrite (parseError_structured err v) by done. split.
    + by intros ->.
    + intros Hmsg. rewrite Hmsg in *. cbn in Hjson.
      destruct (JSON_stringify v) as [json|]; [|done]. by exists json.
  - intros HtoJSON. rewrite parseError_plain by done.
    repeat split.
    + by intros ->.
    + by intros -> ->.
    + by intros -> ->.
Qed.

(** C8 as stated fails: reading [toJSON] of null or of undefined raises a
    TypeError, so [parseError] is not total over every input value. *)
Lemma parseError_raises_on_null_and_undefined :
  parseError JNull = Throws /\ parseError JUndefined = Throws.
Proof. split; reflexivity. Qed.

(** ** [bulkSend] and the classifier *)

Section Bulk.

Lemma is_str_functional (v : js) (a b : string) :
  is_str v a = true -> is_str v b = true -> a = b.
Proof.
  destruct v; try done. cbn.
  intros Ha%String.eqb_eq Hb%String.eqb_eq. congruence.
Qed.

Lemma ignorable_not_fatal (item : bulk_item) :
  ignorable item = true -> fatal item = false.
Proof.
  unfold ignorable, fatal.
  destruct (truthy (error item)), (conflict item),
    (is_str (item_type item) REJECTED),
    (is_str (item_type item) "document_already_exists_exception"),
    (is_str (item_type item) "document_missing_exception"); done.
Qed.

Lemma ignorable_not_retriable (item : bulk_item) :
  ignorable item = true -> retriable item = false.
Proof.
  unfold ignorable, retriable.
  destruct (truthy (error item)); [|done].
  destruct (conflict item); [done|]. cbn.
  destruct (is_str (item_type item) REJECTED) eqn:Hrejected; [|done].
  intros [H|H]%orb_prop;
    by specialize (is_str_functional _ _ _ Hrejected H).
Qed.

Lemma no_error_not_fatal (item : bulk_item) :
  truthy (error item) = false -> fatal item = false /\ retriable item = false.
Proof. unfold fatal, retriable. by intros ->. Qed.

(** A list with a fatal item splits at the first one. *)
Lemma first_fatal (items : list bulk_item) :
  existsb fatal items = true ->
  exists before item after,
    items = before ++ item :: after
    /\ Forall (fun x => fatal x = false) before
    /\ fatal item = true.
Proof.
  induction items as [|x items IH]; [done|]. cbn.
  destruct (fatal x) eqn:Hx.
  - intros _. by exists [], x, items.
  - intros (before & item & after & -> & Hbefore & Hitem)%IH.
    exists (x :: before), item, after. by repeat split; [constructor|].
Qed.

Lemma no_fatal (items : list bulk_item) :
  existsb fatal items = false -> Forall (fun x => fatal x = false) items.
Proof.
  induction items as [|x items IH]; [done|]. cbn.
  intros [Hx Hitems]%orb_false_elim. constructor; auto.
Qed.

(** The loop reads a tail only through its own result on it. *)
Lemma filter_loop_tail data before tail tail' :
  (forall i retry, filter_loop data tail i retry = filter_loop data tail' i retry) ->
  forall i retry,
    filter_loop data (before ++ tail) i retry
    = filter_loop data (before ++ tail') i retry.
Proof.
  intros Htail. induction before as [|x before IH]; intros i retry; cbn [app].
  - apply Htail.
  - destruct (fatal x) eqn:Hx.
    + by rewrite !(filter_loop_fatal data x) by done.
    + rewrite !(filter_loop_step data x) by done. apply IH.
Qed.

(** What [step] does with each effect of the handler. *)
Lemma step_resolve {Q A V} (handle : handler Q A V) c q a random logged v :
  awaited c = Some q -> handle q a = (logged, resolve v) ->
  step handle c (a, random)
  = {| settled := Resolved v; backoff := backoff c; awaited := None;
       requests := requests c; timers := timers c;
       events := events c ++ logged |}.
Proof. intros Hq Hh. unfold step. cbn. by rewrite Hq, Hh. Qed.

Lemma step_reject {Q A V} (handle : handler Q A V) c q a random logged r :
  awaited c = Some q -> handle q a = (logged, reject r) ->
  step handle c (a, random)
  = {| settled := Rejected r; backoff := backoff c; awaited := None;
       requests := requests c; timers := timers c;
       events := events c ++ logged |}.
Proof. intros Hq Hh. unfold step. cbn. by rewrite Hq, Hh. Qed.

Lemma step_retry {Q A V} (handle : handler Q A V) c q a random logged q' :
  awaited c = Some q -> handle q a = (logged, retry_with q') ->
  step handle c (a, random)
  = {| settled := settled c; backoff := snd (retry (backoff c) random);
       awaited := Some q'; requests := requests c ++ [q'];
       timers := timers c ++ [fst (retry (backoff c) random)];
       events := events c ++ logged |}.
Proof.
  intros Hq Hh. unfold step. cbn. rewrite Hq, Hh.
  by destruct (retry (backoff c) random).
Qed.

Lemma step_unsettled {Q A V} (handle : handler Q A V) c q a random logged :
  awaited c = Some q -> handle q a = (logged, unsettled) ->
  step handle c (a, random)
  = {| settled := settled c; backoff := backoff c; awaited := None;
       requests := requests c; timers := timers c;
       events := events c ++ logged |}.
Proof. intros Hq Hh. unfold step. cbn. by rewrite Hq, Hh. Qed.


End Bulk.



Section RetrySet.

Lemma elem_of_concat {A} (x : A) (ls : list (list A)) :
  x ∈ concat ls <-> exists l, l ∈ ls /\ x ∈ l.
Proof.
  rewrite list_elem_of_In, in_concat. setoid_rewrite list_elem_of_In. done.
Qed.

Lemma elem_of_retry_set data items x :
  x ∈ retry_set data items
  <-> exists i item,
        items !! i = Some item /\ retriable item = true /\ x ∈ pair_of data i.
Proof.
  unfold retry_set. rewrite elem_of_concat. split.
  - intros (l & (i & item & -> & Hi)%elem_of_lookup_imap & Hx).
    exists i, item. destruct (retriable item); [done|]. by apply elem_of_nil in Hx.
  - intros (i & item & Hi & Hitem & Hx). exists (pair_of data i). split; [|done].
    apply elem_of_lookup_imap. exists i, item. by rewrite Hitem.
Qed.

End RetrySet.

(** C3, as the code has it. When no item of the result is fatal, the
    classifier's retry set is made of the request pairs at positions [2i]
    and [2i+1] of the request body for exactly the items, at any index [i],
    the first included, whose error type is
    [es_rejected_execution_exception] and whose status is not 409, in the
    order of the items; an item without error or with an ignorable error
    contributes no entry. (A position past the end of the body reads as
    undefined.) *)
Theorem retry_set_of_rejected_items (data : list js) (items : list bulk_item)
    (flag : bool) :
  existsb fatal items = false ->
  let response := _filterResponse data {| errors := flag; items := items |} in
  nonRetriableError response = false
  /\ Api.data response = retry_set data items
  /\ (forall i item, items !! i = Some item -> retriable item = true ->
        forall x, x ∈ pair_of data i -> x ∈ Api.data response)
  /\ (forall x, x ∈ Api.data response ->
        exists i item,
          items !! i = Some item /\ retriable item = true /\ x ∈ pair_of data i).
Proof.
  intros Hitems%no_fatal. cbn zeta. unfold _filterResponse. cbn [Api.items].
  rewrite filter_loop_no_fatal by done. cbn. fold (retry_set data items).
  split_and!; try done.
  - intros i item Hi Hitem x Hx. apply elem_of_retry_set. eauto.
  - intros x Hx. by apply elem_of_retry_set.
Qed.

Lemma retry_set_of_rejected_items_witness :
  existsb fatal [item_rejected; item_created; item_rejected] = false
  /\ Api.data (_filterResponse sample_body
                 {| errors := true;
                    items := [item_rejected; item_created; item_rejected] |})
     = [action 1; document 1; action 3; document 3].
Proof.
  split; [reflexivity|].
  apply (retry_set_of_rejected_items sample_body
           [item_rejected; item_created; item_rejected] true eq_refl).
Defined.

(** C3 as stated fails: a rejected item does not have its pair in the
    retry set when a fatal item follows it. *)
Lemma retry_set_empty_with_fatal_item :
  retriable item_rejected = true
  /\ [item_rejected; item_unparsed] !! 0%nat = Some item_rejected
  /\ Api.data (_filterResponse sample_body
                 {| errors := true; items := [item_rejected; item_unparsed] |})
     = [].
Proof. repeat split. Qed.

Section Ignorable.

Lemma filter_loop_skips data items i retry :
  Forall (fun x => truthy (error x) = true -> ignorable x = true) items ->
  filter_loop data items i retry
  = {| Api.data := retry; nonRetriableError := false; reason := JUndefined |}.
Proof.
  intros H. revert i retry.
  induction H as [|x items Hx _ IH]; intros i retry; [done|].
  destruct (truthy (error x)) eqn:Herror.
  - rewrite filter_loop_step by auto using ignorable_not_fatal.
    rewrite ignorable_not_retriable, app_nil_r by auto. apply IH.
  - destruct (no_error_not_fatal x Herror) as [Hfatal Hretriable].
    rewrite filter_loop_step, Hretriable, app_nil_r by done. apply IH.
Qed.

Lemma filter_loop_skips_one data item rest i retry :
  ignorable item = true ->
  filter_loop data (item :: rest) i retry
  = filter_loop data ({| status := status item; error := JUndefined |} :: rest) i retry.
Proof.
  intros Hitem.
  rewrite filter_loop_step, ignorable_not_retriable
    by auto using ignorable_not_fatal.
  by rewrite filter_loop_step.
Qed.

End Ignorable.

(** C6. An item that carries an error is ignored when its status is 409 or
    its error type is [document_already_exists_exception] or
    [document_missing_exception]: it is neither retriable nor fatal, and at
    any position, the first included, the classifier's result is the one
    it gives with that item free of error, so the item reaches neither the
    retry set nor the fatal path. When
    every item that carries an error is ignorable, the classifier returns
    an empty retry set and no error, and [bulkSend] resolves with the raw
    bulk result and schedules no retry. *)
Theorem ignorable_items_are_ignored (data : list js)
    (before after items : list bulk_item) (item : bulk_item) (flag : bool)
    (c : chain (list js) bulk_result) (random : float) :
  ignorable item = true ->
  Forall (fun x => truthy (error x) = true -> ignorable x = true) items ->
  awaited c = Some data ->
  retriable item = false
  /\ fatal item = false
  /\ _filterResponse data {| errors := flag; items := before ++ item :: after |}
     = _filterResponse data
         {| errors := flag;
            items := before ++ {| status := status item; error := JUndefined |} :: after |}
  /\ let results := {| errors := flag; items := items |} in
     _filterResponse data results
     = {| Api.data := []; nonRetriableError := false; reason := JUndefined |}
     /\ let c' := step bulkSend c (fulfilled results, random) in
        settled c' = Resolved results
        /\ awaited c' = None
        /\ requests c' = requests c
        /\ timers c' = timers c.
Proof.
  intros Hitem Hitems Hc.
  split; [by apply ignorable_not_retriable|].
  split; [by apply ignorable_not_fatal|]. split.
  - unfold _filterResponse. cbn [Api.items]. apply filter_loop_tail.
    intros i retry. by apply filter_loop_skips_one.
  - cbn zeta. split; [by apply filter_loop_skips|].
    assert (sendData_then data {| errors := flag; items := items |}
            = (if flag then [filterResponse_called] else [],
               resolve {| errors := flag; items := items |})) as Hthen.
    { unfold sendData_then, _filterResponse. cbn [errors Api.items].
      rewrite filter_loop_skips by done. by destruct flag. }
    by erewrite step_resolve.
Qed.

Lemma ignorable_items_are_ignored_witness :
  retriable item_conflict = false
  /\ fatal item_conflict = false
  /\ _filterResponse sample_body
       {| errors := true; items := [item_conflict; item_rejected; item_created] |}
     = _filterResponse sample_body
         {| errors := true;
            items := [{| status := JNum 409; error := JUndefined |};
                      item_rejected; item_created] |}
  /\ let results :=
       {| errors := true; items := [item_conflict; item_created; item_missing] |} in
     _filterResponse sample_body results
     = {| Api.data := []; nonRetriableError := false; reason := JUndefined |}
     /\ let c' := step bulkSend (begin sample_body) (fulfilled results, 0.5%float) in
        settled c' = Resolved results
        /\ awaited c' = None
        /\ requests c' = [sample_body]
        /\ timers c' = [].
Proof.
  apply (ignorable_items_are_ignored sample_body [] [item_rejected; item_created]
           [item_conflict; item_created; item_missing] item_conflict true
           (begin sample_body) 0.5%float);
    [reflexivity| |reflexivity].
  repeat (constructor; [by cbn|]). constructor.
Defined.

(** The two bulk scenarios of the specification: a body of two writes
    whose first item reports status 409, or a rejected execution. *)
Example scenario_conflict :
  let body := [action 1; document 1; action 2; document 2] in
  let results :=
    {| errors := false;
       items := [{| status := JNum 409; error := JUndefined |}; item_created] |} in
  let c := step bulkSend (begin body) (fulfilled results, 0.5%float) in
  settled c = Resolved results /\ requests c = [body] /\ timers c = [].
Proof. repeat split. Qed.

Example scenario_rejected :
  let body := [action 1; document 1; action 2; document 2] in
  let results :=
    {| errors := true;
       items := [{| status := JUndefined;
                    error := JObj [("type", JStr "es_rejected_execution_exception")] |};
                 item_created] |} in
  let reissued := {| errors := false; items := [item_created] |} in
  let c := step bulkSend (begin body) (fulfilled results, 0.5%float) in
  Api.data (_filterResponse body results) = [action 1; document 1]
  /\ settled c = Pending
  /\ requests c = [body; [action 1; document 1]]
  /\ timers c = [7500]
  /\ settled (step bulkSend c (fulfilled reissued, 0.5%float)) = Resolved reissued.
Proof. repeat split. Qed.



(** ** [search] and [count] *)

Section Search.

Lemma elem_of_uniq_from seen l x :
  x ∈ uniq_from seen l <-> x ∈ l /\ x ∉ seen.
Proof.
  revert seen. induction l as [|y l IH]; intros seen; cbn.
  - rewrite elem_of_nil. tauto.
  - case_bool_decide as Hy.
    + rewrite IH. set_solver.
    + rewrite !elem_of_cons, IH. destruct (decide (x = y)); set_solver.
Qed.

Lemma NoDup_uniq_from seen l : NoDup (uniq_from seen l).
Proof.
  revert seen. induction l as [|y l IH]; intros seen; cbn; [constructor|].
  case_bool_decide; [done|]. constructor; [|done].
  rewrite elem_of_uniq_from. set_solver.
Qed.

(** [uniq] lists the distinct values. *)
Lemma elem_of_uniq l x : x ∈ uniq l <-> x ∈ l.
Proof. unfold uniq. rewrite elem_of_uniq_from. set_solver. Qed.

Lemma NoDup_uniq l : NoDup (uniq l).
Proof. apply NoDup_uniq_from. Qed.

(** The distinct values are exactly [{x}] when [uniq] is [[x]]. *)
Lemma uniq_singleton (l : list string) (x : string) :
  (list_to_set l : gset string) = {[ x ]} <-> uniq l = [x].
Proof.
  split.
  - intros Hset.
    assert (forall y, y ∈ uniq l <-> y = x) as Helem.
    { intros y. rewrite elem_of_uniq, <- (elem_of_list_to_set (C := gset string)).
      rewrite Hset. set_solver. }
    pose proof (NoDup_uniq l) as Hnodup.
    destruct (uniq l) as [|y [|z rest]].
    + specialize (Helem x). set_solver.
    + f_equal. apply Helem. set_solver.
    + assert (y = x) as -> by (apply Helem; set_solver).
      assert (z = x) as -> by (apply Helem; set_solver).
      apply NoDup_cons in Hnodup as [Hnotin _]. set_solver.
  - intros Huniq. apply set_eq. intros y.
    rewrite elem_of_list_to_set, <- elem_of_uniq, Huniq. set_solver.
Qed.

(** The test of the source on [reasons]. *)
Lemma retry_test (reasons : list string) :
  (1 <? length reasons)%nat
  || negb (match reasons with
           | r :: _ => String.eqb r "es_rejected_execution_exception"
           | [] => false
           end)
  = negb (bool_decide (reasons = [REJECTED])).
Proof.
  destruct reasons as [|r [|r' rest]]; cbn; try done.
  - destruct (String.eqb_spec r "es_rejected_execution_exception") as [->|Hr]; cbn.
    + by rewrite bool_decide_eq_true_2.
    + rewrite bool_decide_eq_false_2; [done|]. unfold REJECTED. congruence.
  - by rewrite bool_decide_eq_false_2.
Qed.

Lemma searchES_then_cases {Q V} (value : search_response -> V) (query : Q) data :
  0 < shards_failed (_shards data) ->
  searchES_then value query data
  = if bool_decide (uniq (failure_types data) = [REJECTED])
    then ([], retry_with query)
    else let errorReason := String.concat " | " (uniq (failure_types data)) in
         ([logger_error [JStr "Not all shards returned successful, shard errors: ";
                         JStr errorReason]],
          reject (JStr errorReason)).
Proof.
  intros Hfailed%Z.ltb_lt. unfold searchES_then. rewrite Hfailed.
  fold (failure_types data). rewrite retry_test.
  by destruct (bool_decide (uniq (failure_types data) = [REJECTED])).
Qed.

(** [searchES] only ever retries the query it was given. *)
Lemma searchES_retries_same {Q V} (value : search_response -> V) (query : Q)
    a logged q' :
  searchES value query a = (logged, retry_with q') -> q' = query.
Proof.
  destruct a as [data|err]; cbn.
  - unfold searchES_then.
    destruct (0 <? shards_failed (_shards data)); [|done].
    destruct (_ || _); [done|]. congruence.
  - unfold searchES_catch.
    destruct (parseError err); destruct (is_str _ _); try done;
      destruct (_ ≫= _) as [[]|]; done.
Qed.

(** Every request of a chain of [search] or [count] passes the same
    reference. *)
Lemma searchES_requests {V} (value : search_response -> V) (query : positive)
    (c : chain positive V) inputs :
  (awaited c = None \/ awaited c = Some query) ->
  Forall (fun q => q = query) (requests c) ->
  Forall (fun q => q = query) (requests (run (searchES value) c inputs)).
Proof.
  revert c. induction inputs as [|[a random] inputs IH]; intros c Hc Hrequests;
    [done|].
  unfold run in *. cbn [fold_left].
  destruct Hc as [Hc|Hc].
  { unfold step at 2. rewrite Hc. apply IH; auto. }
  destruct (searchES value query a) as [logged eff] eqn:Hhandle.
  destruct eff as [v|r|q'|].
  - erewrite step_resolve by done. apply IH; auto.
  - erewrite step_reject by done. apply IH; auto.
  - erewrite step_retry by done.
    apply searchES_retries_same in Hhandle as ->.
    apply IH; cbn; [auto|]. apply Forall_app. by repeat constructor.
  - erewrite step_unsettled by done. apply IH; auto.
Qed.

(** [_.every] over root causes that are objects. *)
Lemma every_rejected (root_cause : list js) :
  Forall (fun shard => nullish shard = false) root_cause ->
  every (fun shard =>
           type ← prop shard "type";
           Returns (is_str type "es_rejected_execution_exception"))
        root_cause
  = Returns (forallb (fun shard => is_str (read shard "type") REJECTED) root_cause).
Proof.
  induction 1 as [|shard root_cause Hshard _ IH]; [done|].
  cbn. rewrite prop_returns by done. cbn. unfold REJECTED at 1.
  by destruct (is_str (read shard "type") "es_rejected_execution_exception").
Qed.

End Search.

(** C5. For a response of [search] or of [count] (both run [searchES]) whose
    [_shards.failed] is greater than zero: [uniq] yields the distinct
    reason types of the shard failures; when these are exactly
    [{es_rejected_execution_exception}], the same query is scheduled again
    and the promise stays pending; otherwise the promise is rejected with
    the distinct reason types joined by " | ". *)
Theorem shard_failures_retry_or_reject {V} (value : search_response -> V)
    (query : positive) (data : search_response) (c : chain positive V)
    (random : float) :
  0 < shards_failed (_shards data) ->
  awaited c = Some query ->
  settled c = Pending ->
  let types := failure_types data in
  let c' := step (searchES value) c (fulfilled data, random) in
  NoDup (uniq types)
  /\ (forall t, t ∈ uniq types <-> t ∈ types)
  /\ ((list_to_set types : gset string) = {[ REJECTED ]} ->
        settled c' = Pending
        /\ awaited c' = Some query
        /\ requests c' = requests c ++ [query]
        /\ timers c' = timers c ++ [fst (retry (backoff c) random)])
  /\ ((list_to_set types : gset string) <> {[ REJECTED ]} ->
        settled c' = Rejected (JStr (String.concat " | " (uniq types)))
        /\ awaited c' = None
        /\ requests c' = requests c
        /\ timers c' = timers c).
Proof.
  intros Hfailed Hc Hpending. cbn zeta.
  split; [apply NoDup_uniq|]. split; [apply elem_of_uniq|].
  pose proof (searchES_then_cases value query data Hfailed) as Hthen.
  split; intros Hset.
  - apply uniq_singleton in Hset. rewrite bool_decide_eq_true_2 in Hthen by done.
    by erewrite step_retry.
  - rewrite uniq_singleton in Hset. rewrite bool_decide_eq_false_2 in Hthen by done.
    by erewrite step_reject.
Qed.

Lemma shard_failures_retry_or_reject_witness :
  (let c' := step count_handler (begin 1%positive)
               (fulfilled (response_with_failures [REJECTED; REJECTED]), 0.5%float) in
   settled c' = Pending /\ awaited c' = Some 1%positive
   /\ requests c' = [1%positive; 1%positive])
  /\ settled (step (search_handler false) (begin 1%positive)
                (fulfilled (response_with_failures [REJECTED; "query_shard_exception"]),
                 0.5%float))
     = Rejected (JStr "es_rejected_execution_exception | query_shard_exception").
Proof.
  split.
  - pose proof (shard_failures_retry_or_reject
                  (fun data => total (response_hits data)) 1%positive
                  (response_with_failures [REJECTED; REJECTED]) (begin 1%positive)
                  0.5%float eq_refl eq_refl eq_refl) as (_ & _ & Hretry & _).
    destruct Hretry as (? & ? & ? & _); [|done].
    apply set_eq. intros t. cbn. set_solver.
  - pose proof (shard_failures_retry_or_reject
                  (fun data => documents (map _source (hits_hits (response_hits data))))
                  1%positive
                  (response_with_failures [REJECTED; "query_shard_exception"])
                  (begin 1%positive) 0.5%float eq_refl eq_refl eq_refl)
      as (_ & _ & _ & Hreject).
    apply Hreject. intros Hset.
    assert ("query_shard_exception" ∈ ({[ REJECTED ]} : gset string)) as Hin.
    { rewrite <- Hset. cbn. set_solver. }
    by apply elem_of_singleton in Hin.
Defined.

(** The [.catch] of [searchES] schedules no retry, whatever the error. *)
Lemma searchES_catch_never_retries {Q V} (err : js) (q : Q) :
  snd (searchES_catch (V := V) err) <> retry_with q.
Proof.
  unfold searchES_catch.
  destruct (parseError err); destruct (is_str _ _); try done;
    destruct (_ ≫= _) as [[]|]; done.
Qed.

(** The branches of the [.catch] of [searchES], for an error value
    [parseError] can read: rejected with the normalized reason unless the
    body reports a reduce-search-phase failure; then rejected when every
    root cause is a rejected execution, and left without any settlement
    when one is not. No branch retries. *)
Lemma searchES_catch_cases {Q V} (err : js) :
  readable err = true ->
  exists errMsg,
    parseError err = Returns errMsg
    /\ let rejected : list event * effect Q V :=
         ([logger_error [errMsg]], reject errMsg) in
       (is_str (lodash_get err ["body"; "error"; "type"]) "reduce_search_phase_exception"
        = false -> searchES_catch err = rejected)
       /\ (is_str (lodash_get err ["body"; "error"; "type"]) "reduce_search_phase_exception"
           = true ->
           forall root_cause,
             lodash_get err ["body"; "error"; "root_cause"] = JArr root_cause ->
             Forall (fun shard => nullish shard = false) root_cause ->
             searchES_catch err
             = if forallb (fun shard => is_str (read shard "type") REJECTED) root_cause
               then rejected
               else ([], unsettled)).
Proof.
  intros (errMsg & HerrMsg)%readable_returns. exists errMsg. split; [done|].
  cbn zeta. unfold searchES_catch. rewrite HerrMsg. split.
  - by intros ->.
  - intros -> root_cause Hroot Hshards.
    pose proof (every_rejected root_cause Hshards) as Hevery.
    destruct err; try done. cbn in *.
    destruct (field "body" fields) eqn:Hbody; try done. cbn in *.
    destruct (field "error" fields0) eqn:Herror; try done; cbn in *;
      rewrite ?Hroot; cbn; rewrite ?Hevery;
      try (by destruct (forallb _ root_cause)); try done.
Qed.

(** C1 at the failing input: a transport error whose body reports a
    reduce-search-phase failure with one root cause that is not a rejected
    execution. Neither [search] nor [count] rejects: the promise stays
    pending with no request awaited, whatever is fed to the chain next. *)
Lemma searchES_leaves_reduce_failure_unsettled :
  let after_search :=
    step (search_handler false) (begin 1%positive)
      (failed error_reduce_mixed, 0.5%float) in
  let after_count :=
    step count_handler (begin 1%positive) (failed error_reduce_mixed, 0.5%float) in
  readable error_reduce_mixed = true
  /\ settled after_search = Pending /\ awaited after_search = None
  /\ settled after_count = Pending /\ awaited after_count = None
  /\ settled (run count_handler after_count
                [(failed error_timeout, 0.5%float);
                 (fulfilled (response_with_failures []), 0.5%float)])
     = Pending.
Proof. repeat split. Qed.

(** ** The point operations *)

Section Point.

(** The widening does not depend on the value drawn. *)
Lemma retry_widens_alike (t : timer) (random random' : float) :
  snd (retry t random) = snd (retry t random').
Proof. reflexivity. Qed.





End Point.



(** C10. [count] assigns [size = 0] on the query object its caller passed,
    before the first client call: after the call the caller's reference
    leads to the object with [size] 0 (its other properties and the other
    objects of the heap are as they were), and every client call of the
    chain, the first and each retry, is handed that same object. [search]
    leaves the heap as it is and hands the client the caller's object
    unmodified at every call. *)
Theorem count_assigns_size_on_the_callers_query (query : positive)
    (h : gmap positive (gmap string js)) (descriptor : gmap string js)
    (config_full_response : bool)
    (inputs inputs' : list (answer search_response * float)) :
  h !! query = Some descriptor ->
  let h' := fst (count query h) in
  let counting := run count_handler (snd (count query h)) inputs in
  let searching :=
    run (search_handler config_full_response) (snd (search query h)) inputs' in
  h' !! query = Some (<["size" := JNum 0]> descriptor)
  /\ (forall k, k <> "size" -> (<["size" := JNum 0]> descriptor) !! k = descriptor !! k)
  /\ (forall other, other <> query -> h' !! other = h !! other)
  /\ handed h' (snd (count query h)) = [Some (<["size" := JNum 0]> descriptor)]
  /\ Forall (fun o => o = Some (<["size" := JNum 0]> descriptor)) (handed h' counting)
  /\ fst (search query h) = h
  /\ handed h (snd (search query h)) = [Some descriptor]
  /\ Forall (fun o => o = Some descriptor) (handed h searching).
Proof.
  intros Hquery. cbn zeta. cbn [count search fst snd].
  assert (alter (insert "size" (JNum 0)) query h !! query
          = Some (<["size" := JNum 0]> descriptor)) as Hsize
    by (by rewrite lookup_alter_eq, Hquery).
  split_and!; try done.
  - intros k Hk. by rewrite lookup_insert_ne.
  - intros other Hother. by rewrite lookup_alter_ne.
  - unfold handed. cbn. by rewrite Hsize.
  - unfold handed. apply Forall_fmap.
    eapply Forall_impl; [apply searchES_requests; [by right|by repeat constructor]|].
    cbn. by intros q ->.
  - unfold handed. cbn. by rewrite Hquery.
  - unfold handed. apply Forall_fmap.
    eapply Forall_impl; [apply searchES_requests; [by right|by repeat constructor]|].
    cbn. by intros q ->.
Qed.

Lemma count_assigns_size_on_the_callers_query_witness :
  let inputs :=
    [(fulfilled (response_with_failures [REJECTED]), 0.5%float);
     (fulfilled (response_with_failures []), 0.5%float)] in
  sample_heap !! 1%positive = Some sample_query
  /\ fst (count 1%positive sample_heap) !! 1%positive
     = Some (<["size" := JNum 0]> sample_query)
  /\ Forall (fun o => o = Some (<["size" := JNum 0]> sample_query))
       (handed (fst (count 1%positive sample_heap))
          (run count_handler (snd (count 1%positive sample_heap)) inputs))
  /\ Forall (fun o => o = Some sample_query)
       (handed sample_heap
          (run (search_handler false) (snd (search 1%positive sample_heap)) inputs)).
Proof.
  intros inputs.
  assert (sample_heap !! 1%positive = Some sample_query) as Hquery by reflexivity.
  split; [exact Hquery|].
  destruct (count_assigns_size_on_the_callers_query 1%positive sample_heap
              sample_query false inputs inputs Hquery)
    as (Hsize & _ & _ & _ & Hcount & _ & _ & Hsearch).
  split_and!; [exact Hsize|exact Hcount|exact Hsearch].
Defined.

Lemma parseError_priority_order_witness :
  readable error_not_found = true
  /\ parseError error_not_found
     = Returns (JStr "[index_not_found_exception] no such index")
  /\ parseError (JObj [("toJSON", JFun (Some (JArr [JNum 500])));
                       ("stack", JStr "Error: 500")])
     = Returns (JStr "Unknown ES Error Format [500]")
  /\ parseError error_timeout = Returns (JStr "Error: Request Timeout after 30000ms")
  /\ parseError (JObj [("response", JStr "no living connections")])
     = Returns (JStr "no living connections")
  /\ parseError (JStr "socket hang up") = Returns (JStr "socket hang up").
Proof.
  split_and!.
  - reflexivity.
  - destruct (parseError_priority_order error_not_found eq_refl) as (_ & Hjson & _).
    apply (Hjson _ eq_refl eq_refl). reflexivity.
  - destruct (parseError_priority_order
                (JObj [("toJSON", JFun (Some (JArr [JNum 500])));
                       ("stack", JStr "Error: 500")]) eq_refl) as (_ & Hjson & _).
    destruct (Hjson _ eq_refl eq_refl) as (_ & Htagged).
    destruct (Htagged eq_refl) as (json & Hjson' & ->).
    by injection Hjson' as <-.
  - destruct (parseError_priority_order error_timeout eq_refl) as (_ & _ & Hplain).
    apply (Hplain eq_refl). reflexivity.
  - destruct (parseError_priority_order
                (JObj [("response", JStr "no living connections")]) eq_refl)
      as (_ & _ & Hplain).
    by apply (Hplain eq_refl).
  - destruct (parseError_priority_order (JStr "socket hang up") eq_refl)
      as (_ & _ & Hplain).
    by apply (Hplain eq_refl).
Defined.

(** ** The retry timer *)

Section Timer.

(** The timer after [n] uses of a fresh one, in closed form. *)
Lemma widened_fresh (n : nat) :
  widened n retryTimer
  = {| start := Z.min (5000 * (Z.of_nat n + 1)) 30000;
       limit := Z.min (10000 * (Z.of_nat n + 1)) 60000 |}.
Proof.
  assert (forall n k,
            0 <= k ->
            widened n {| start := Z.min (5000 * (k + 1)) 30000;
                         limit := Z.min (10000 * (k + 1)) 60000 |}
            = {| start := Z.min (5000 * (k + Z.of_nat n + 1)) 30000;
                 limit := Z.min (10000 * (k + Z.of_nat n + 1)) 60000 |}) as H.
  { clear n. induction n as [|n IH]; intros k Hk.
    - cbn [widened]. do 2 f_equal; lia.
    - cbn [widened retry snd start limit].
      replace (k + Z.of_nat (S n) + 1) with ((k + 1) + Z.of_nat n + 1) by lia.
      rewrite <- IH by lia. f_equal.
      destruct (Z.ltb_spec (Z.min (10000 * (k + 1)) 60000) 60000);
        cbn [start limit];
        destruct (Z.ltb_spec (Z.min (5000 * (k + 1)) 30000) 30000);
        f_equal; lia. }
  apply (H n 0). lia.
Qed.

Lemma uses_lookup (randoms : list float) (k : nat) (random : float) (t : timer) :
  randoms !! k = Some random ->
  uses t randoms !! k = Some (widened k t, fst (retry (widened k t) random)).
Proof.
  revert t k. induction randoms as [|r randoms IH]; intros t [|k] Hk; try done.
  - by injection Hk as ->.
  - cbn. by apply IH.
Qed.

Lemma widened_succ (k : nat) (t : timer) (random : float) :
  widened (S k) t = snd (retry (widened k t) random).
Proof.
  revert t. induction k as [|k IH]; intros t; [done|].
  change (widened (S (S k)) t) with (widened (S k) (snd (retry t 0%float))).
  by rewrite (IH (snd (retry t 0%float))).
Qed.

End Timer.

(** ** Binary64 arithmetic of the delay *)

Section Binary64.

Lemma iter_pos_nat {A} (f : A -> A) (p : positive) (x : A) :
  SpecFloat.iter_pos f p x = Nat.iter (Pos.to_nat p) f x.
Proof.
  revert x. induction p as [p IH|p IH|]; intros x; cbn [SpecFloat.iter_pos].
  - rewrite !IH, Pos2Nat.inj_xI.
    replace (S (2 * Pos.to_nat p)) with (Pos.to_nat p + (Pos.to_nat p + 1))%nat by lia.
    rewrite !Nat.iter_add. reflexivity.
  - rewrite !IH, Pos2Nat.inj_xO.
    replace (2 * Pos.to_nat p)%nat with (Pos.to_nat p + Pos.to_nat p)%nat by lia.
    rewrite Nat.iter_add. reflexivity.
  - reflexivity.
Qed.

Lemma shr_1_m (r : shr_record) :
  0 <= shr_m r -> shr_m (shr_1 r) = shr_m r / 2.
Proof.
  destruct r as [m r s]. intros Hm. cbn [shr_m] in Hm.
  destruct m as [|[p|p|]|p]; cbn [shr_1 shr_m]; try lia; try reflexivity.
  - apply Z.div_unique with 1; lia.
  - apply Z.div_unique with 0; lia.
Qed.

Lemma shr_1_exact (r : shr_record) :
  0 <= shr_m r -> shr_m r mod 2 = 0 -> shr_r r = false -> shr_s r = false ->
  shr_r (shr_1 r) = false /\ shr_s (shr_1 r) = false.
Proof.
  destruct r as [m r s]. cbn [shr_m shr_r shr_s]. intros Hm Heven -> ->.
  destruct m as [|[p|p|]|p]; cbn [shr_1 shr_r shr_s orb]; try lia; try tauto.
  - exfalso. rewrite Pos2Z.inj_xI in Heven.
    replace (2 * Z.pos p + 1) with (1 + Z.pos p * 2) in Heven by lia.
    rewrite Z.mod_add in Heven by lia. discriminate.
  - discriminate.
Qed.

(** [n] right shifts of a mantissa: the quotient, and no lost bit when
    the division is exact. *)
Lemma shr_iter (n : nat) (m : Z) :
  0 <= m ->
  let r := Nat.iter n shr_1 {| shr_m := m; shr_r := false; shr_s := false |} in
  shr_m r = m / 2 ^ Z.of_nat n
  /\ (m mod 2 ^ Z.of_nat n = 0 -> shr_r r = false /\ shr_s r = false).
Proof.
  intros Hm. induction n as [|n [IHm IHexact]].
  - cbn. rewrite Z.div_1_r. tauto.
  - cbn zeta in *. rewrite Nat.iter_succ.
    set (r := Nat.iter n shr_1 _) in *.
    assert (0 <= shr_m r) as Hr by (rewrite IHm; apply Z.div_pos; lia).
    rewrite Nat2Z.inj_succ, Z.pow_succ_r by lia. split.
    + rewrite shr_1_m, IHm by done. rewrite Z.div_div by lia. f_equal. lia.
    + intros Hmod.
      assert (m mod 2 ^ Z.of_nat n = 0) as Hmod'.
      { apply Z.mod_divide in Hmod; [|lia]. apply Z.mod_divide; [lia|].
        destruct Hmod as [q ->]. exists (q * 2). lia. }
      destruct (IHexact Hmod') as [Hr1 Hr2].
      apply shr_1_exact; try done. rewrite IHm.
      apply Z.mod_divide in Hmod; [|lia]. destruct Hmod as [q ->].
      replace (q * (2 * 2 ^ Z.of_nat n)) with ((q * 2) * 2 ^ Z.of_nat n) by lia.
      rewrite Z.div_mul by lia. apply Z.mod_mul. lia.
Qed.

Lemma fexp_binary64 (z : Z) : fexp prec emax z = Z.max (z - 53) (-1074).
Proof. reflexivity. Qed.

Lemma digits2_pos_bounds (m : positive) :
  2 ^ (Z.pos (digits2_pos m) - 1) <= Z.pos m < 2 ^ Z.pos (digits2_pos m).
Proof.
  induction m as [m IH|m IH|]; cbn [digits2_pos];
    [| |change (1 <= 1 < 2); lia].
  - rewrite Pos2Z.inj_succ. change (Z.pos m~1) with (2 * Z.pos m + 1).
    replace (Z.succ (Z.pos (digits2_pos m)) - 1)
      with (Z.succ (Z.pos (digits2_pos m) - 1)) by lia.
    rewrite !Z.pow_succ_r by lia. lia.
  - rewrite Pos2Z.inj_succ. change (Z.pos m~0) with (2 * Z.pos m).
    replace (Z.succ (Z.pos (digits2_pos m)) - 1)
      with (Z.succ (Z.pos (digits2_pos m) - 1)) by lia.
    rewrite !Z.pow_succ_r by lia. lia.
Qed.

Lemma Zdigits2_bounds (m : Z) :
  0 <= m ->
  0 <= Zdigits2 m /\ m < 2 ^ Zdigits2 m /\ (0 < m -> 2 ^ (Zdigits2 m - 1) <= m).
Proof.
  destruct m as [|p|p]; cbn [Zdigits2]; [change (2 ^ 0) with 1; lia| |lia].
  intros _. pose proof (digits2_pos_bounds p). lia.
Qed.

(** The exponent a mantissa is rounded at stays nonpositive as long as
    the value is below [2 ^ 52]. *)
Lemma fexp_shift (m e : Z) :
  0 <= m -> e <= 0 -> m <= 2 ^ 52 * 2 ^ (- e) ->
  let k := Z.max 0 (fexp prec emax (Zdigits2 m + e) - e) in
  0 <= k /\ e + k <= 0.
Proof.
  intros Hm He Hbound. cbn zeta. rewrite fexp_binary64. split; [lia|].
  destruct (Zdigits2_bounds m Hm) as (Hd & _ & Hlow).
  destruct (Z.eq_dec m 0) as [->|Hm']; [cbn; lia|].
  assert (Zdigits2 m - 1 <= 52 - e); [|lia].
  apply (Z.pow_le_mono_r_iff 2); [lia|lia|].
  rewrite <- Z.pow_add_r in Hbound by lia.
  replace (52 + - e) with (52 - e) in Hbound by lia. lia.
Qed.

(** Dropping [k] bits keeps a mantissa between bounds that are integers
    at the new exponent. *)
Lemma shift_bounds (m L H e k : Z) :
  0 <= k -> e + k <= 0 ->
  L * 2 ^ (- e) <= m <= H * 2 ^ (- e) ->
  L * 2 ^ (- (e + k)) <= m / 2 ^ k <= H * 2 ^ (- (e + k))
  /\ (m mod 2 ^ k <> 0 -> m / 2 ^ k + 1 <= H * 2 ^ (- (e + k))).
Proof.
  intros Hk He [HL HH].
  assert (0 < 2 ^ k) as Hpow by (apply Z.pow_pos_nonneg; lia).
  assert (2 ^ (- e) = 2 ^ (- (e + k)) * 2 ^ k) as Hsplit.
  { rewrite <- Z.pow_add_r by lia. f_equal. lia. }
  rewrite Hsplit in HL, HH. split_and!.
  - apply Z.div_le_lower_bound; lia.
  - apply Z.div_le_upper_bound; lia.
  - intros Hmod.
    assert (m / 2 ^ k < H * 2 ^ (- (e + k))); [|lia].
    apply Z.div_lt_upper_bound; [lia|].
    assert (m <> 2 ^ k * (H * 2 ^ (- (e + k)))); [|lia].
    intros ->. apply Hmod. rewrite Z.mul_comm. apply Z.mod_mul. lia.
Qed.

Lemma shr_spec (m e n : Z) :
  0 <= m ->
  let k := Z.max 0 n in
  let r := fst (shr {| shr_m := m; shr_r := false; shr_s := false |} e n) in
  snd (shr {| shr_m := m; shr_r := false; shr_s := false |} e n) = e + k
  /\ shr_m r = m / 2 ^ k
  /\ (m mod 2 ^ k = 0 -> shr_r r = false /\ shr_s r = false).
Proof.
  intros Hm. destruct n as [|p|p]; cbn [shr fst snd Z.max Z.compare].
  - cbn. rewrite Z.div_1_r. split_and!; (lia || tauto).
  - rewrite iter_pos_nat.
    destruct (shr_iter (Pos.to_nat p) m Hm) as [H1 H2].
    rewrite positive_nat_Z in H1, H2.
    replace (Z.max 0 (Z.pos p)) with (Z.pos p) by lia. by split_and!.
  - replace (Z.max 0 (Z.neg p)) with 0 by lia.
    cbn. rewrite Z.div_1_r. split_and!; (lia || tauto).
Qed.

Lemma round_nearest_even_bounds (r : shr_record) :
  let m := round_nearest_even (shr_m r) (loc_of_shr_record r) in
  shr_m r <= m <= shr_m r + 1
  /\ (shr_r r = false -> shr_s r = false -> m = shr_m r).
Proof.
  destruct r as [m [] []]; cbn; try destruct (Z.even m); lia.
Qed.

(** Rounding a positive value to binary64: between integer bounds below
    [2 ^ 52] the rounded value stays between the bounds. *)
Lemma binary_round_aux_bounds (mx : positive) (ex L H : Z) :
  ex <= 0 -> 0 <= L -> H <= 2 ^ 52 ->
  L * 2 ^ (- ex) <= Z.pos mx <= H * 2 ^ (- ex) ->
  match binary_round_aux prec emax false (Z.pos mx) ex loc_Exact with
  | S754_zero false => L = 0
  | S754_finite false M E => E <= 0 /\ L * 2 ^ (- E) <= Z.pos M <= H * 2 ^ (- E)
  | _ => False
  end.
Proof.
  intros Hex HL HH Hmx.
  assert (forall e, e <= 0 -> 0 < 2 ^ (- e)) as Hpow
    by (intros; apply Z.pow_pos_nonneg; lia).
  unfold binary_round_aux, shr_fexp.
  cbn [shr_record_of_loc].
  (* the first shift, to the exponent of the exact mantissa *)
  set (n1 := fexp prec emax (Zdigits2 (Z.pos mx) + ex) - ex).
  destruct (shr_spec (Z.pos mx) ex n1 ltac:(lia)) as (He1 & Hm1 & Hexact1).
  destruct (shr _ ex n1) as [r1 e1]. cbn [fst snd] in *.
  destruct (fexp_shift (Z.pos mx) ex ltac:(lia) Hex) as [Hk1 Hk1'].
  { specialize (Hpow ex Hex). nia. }
  fold n1 in Hk1, Hk1'.
  destruct (shift_bounds (Z.pos mx) L H ex _ Hk1 Hk1' Hmx) as [Hfloor1 Hup1].
  rewrite <- He1, <- Hm1 in Hfloor1, Hup1. rewrite <- He1 in Hk1'.
  (* rounding to nearest *)
  destruct (round_nearest_even_bounds r1) as [Hround Hsame].
  set (m1 := round_nearest_even (shr_m r1) (loc_of_shr_record r1)) in *.
  assert (L * 2 ^ (- e1) <= m1 <= H * 2 ^ (- e1)) as Hm1'.
  { split; [lia|].
    destruct (Z.eq_dec (Z.pos mx mod 2 ^ Z.max 0 n1) 0) as [Hmod|Hmod].
    - destruct (Hexact1 Hmod) as [Hr Hs]. rewrite (Hsame Hr Hs). lia.
    - specialize (Hup1 Hmod). lia. }
  assert (0 <= m1) as Hm1pos by (specialize (Hpow e1 Hk1'); nia).
  (* the second shift, after a carry *)
  set (n2 := fexp prec emax (Zdigits2 m1 + e1) - e1).
  destruct (shr_spec m1 e1 n2 Hm1pos) as (He2 & Hm2 & _).
  destruct (shr _ e1 n2) as [r2 e2]. cbn [fst snd] in *.
  destruct (fexp_shift m1 e1 Hm1pos Hk1') as [Hk2 Hk2'].
  { specialize (Hpow e1 Hk1'). nia. }
  fold n2 in Hk2, Hk2'.
  destruct (shift_bounds m1 L H e1 _ Hk2 Hk2' Hm1') as [Hfloor2 _].
  rewrite <- He2, <- Hm2 in Hfloor2. rewrite <- He2 in Hk2'.
  destruct (shr_m r2) as [|M|M] eqn:HM.
  - specialize (Hpow e2 Hk2'). nia.
  - replace (e2 <=? emax - prec) with true; [done|].
    symmetry. apply Z.leb_le. unfold emax, prec. lia.
  - specialize (Hpow e2 Hk2'). nia.
Qed.

Lemma Pos_iter_xO (m d : positive) :
  Z.pos (Pos.iter xO m d) = Z.pos m * 2 ^ Z.pos d.
Proof.
  induction d as [|d IH] using Pos.peano_ind.
  - cbn [Pos.iter]. change (2 ^ 1) with 2. lia.
  - rewrite Pos.iter_succ, Pos2Z.inj_succ, Z.pow_succ_r by lia.
    change (Z.pos (Pos.iter xO m d)~0) with (2 * Z.pos (Pos.iter xO m d)). lia.
Qed.

Lemma shl_align_spec (mx : positive) (ex ex' : Z) :
  snd (shl_align mx ex ex') = Z.min ex ex'
  /\ Z.pos (fst (shl_align mx ex ex')) = Z.pos mx * 2 ^ (ex - Z.min ex ex').
Proof.
  unfold shl_align. destruct (ex' - ex) as [|p|p] eqn:Hdiff; cbn [fst snd].
  - replace (Z.min ex ex') with ex by lia. rewrite Z.sub_diag. cbn. lia.
  - replace (Z.min ex ex') with ex by lia. rewrite Z.sub_diag. cbn. lia.
  - replace (Z.min ex ex') with ex' by lia. rewrite Pos_iter_xO.
    split; [done|]. do 2 f_equal. lia.
Qed.

(** A mantissa between integer bounds, moved to a lower exponent. *)
Lemma align_bounds (m L H e e' : Z) :
  e' <= e -> e <= 0 ->
  L * 2 ^ (- e) <= m <= H * 2 ^ (- e) ->
  L * 2 ^ (- e') <= m * 2 ^ (e - e') <= H * 2 ^ (- e').
Proof.
  intros He' He [HL HH].
  assert (0 < 2 ^ (e - e')) by (apply Z.pow_pos_nonneg; lia).
  replace (2 ^ (- e')) with (2 ^ (- e) * 2 ^ (e - e'))
    by (rewrite <- Z.pow_add_r by lia; f_equal; lia).
  nia.
Qed.

(** What [Math.random()] may return, as a binary64 value: zero, or
    [m * 2 ^ e] below one. *)
Lemma below_one (x : spec_float) :
  valid_binary x = true ->
  SFleb (S754_zero false) x = true ->
  SFltb x (S754_finite false 4503599627370496 (-52)) = true ->
  (exists sign, x = S754_zero sign)
  \/ (exists m e, x = S754_finite false m e /\ e <= 0 /\ Z.pos m < 2 ^ (- e)).
Proof.
  destruct x as [sign|[]| |[] m e]; try done; [by eauto|].
  intros Hvalid _ Hlt. right. exists m, e. split; [done|].
  unfold SFltb, SFcompare in Hlt. cbn in Hvalid.
  apply andb_prop in Hvalid as [Hcanonical _].
  unfold canonical_mantissa in Hcanonical. apply Z.eqb_eq in Hcanonical.
  rewrite fexp_binary64 in Hcanonical.
  pose proof (digits2_pos_bounds m) as [_ Hm].
  destruct (Z.compare_spec e (-52)) as [->|He|He]; [| |done].
  - split; [lia|]. change (2 ^ (- -52)) with 4503599627370496.
    by destruct (Pos.compare_cont Eq m 4503599627370496) eqn:Hcmp.
  - split; [lia|].
    assert (2 ^ Z.pos (digits2_pos m) <= 2 ^ (- e)); [|lia].
    apply Z.pow_le_mono_r; lia.
Qed.

(** [x * d + s] over binary64 values, for [x] as above and integers [d],
    [s] held exactly: the sum is a positive finite value between [s] and
    [s + d]. *)
Lemma scaled_sum_bounds (x : spec_float) (s d : Z) (S D : positive) (eS eD : Z) :
  valid_binary x = true ->
  SFleb (S754_zero false) x = true ->
  SFltb x (S754_finite false 4503599627370496 (-52)) = true ->
  eS <= 0 -> eD <= 0 ->
  Z.pos S = s * 2 ^ (- eS) -> Z.pos D = d * 2 ^ (- eD) ->
  0 < s -> 0 <= d -> s + d <= 2 ^ 52 ->
  match SF64add (SF64mul x (S754_finite false D eD)) (S754_finite false S eS) with
  | S754_finite false M E =>
      E <= 0 /\ s * 2 ^ (- E) <= Z.pos M <= (s + d) * 2 ^ (- E)
  | _ => False
  end.
Proof.
  intros Hvalid Hle Hlt HeS HeD HS HD Hs Hd Hsum.
  assert (forall e, e <= 0 -> 0 < 2 ^ (- e)) as Hpow
    by (intros; apply Z.pow_pos_nonneg; lia).
  assert (s * 2 ^ (- eS) <= Z.pos S <= (s + d) * 2 ^ (- eS)) as Hexact
    by (specialize (Hpow eS HeS); nia).
  destruct (below_one x Hvalid Hle Hlt) as [[sign ->]|(m & e & -> & He & Hm)];
    [done|].
  unfold SF64mul, SFmul. cbn [xorb].
  assert (0 * 2 ^ (- (e + eD)) <= Z.pos (m * D) <= d * 2 ^ (- (e + eD))) as Hexact'.
  { rewrite Pos2Z.inj_mul, HD.
    replace (- (e + eD)) with (- e + - eD) by lia. rewrite Z.pow_add_r by lia.
    specialize (Hpow eD HeD). nia. }
  pose proof (binary_round_aux_bounds (m * D) (e + eD) 0 d
                ltac:(lia) ltac:(lia) ltac:(lia) Hexact') as Hproduct.
  destruct (binary_round_aux prec emax false (Z.pos (m * D)) (e + eD) loc_Exact)
    as [[]|[]| |[] M E]; try done.
  destruct Hproduct as (HE & _ & HM).
  unfold SF64add, SFadd, binary_normalize, binary_round. cbn [cond_Zopp].
  set (ez := Z.min E eS).
  destruct (shl_align_spec M E ez) as [_ Ha].
  destruct (shl_align_spec S eS ez) as [_ Hb].
  replace (Z.min E ez) with ez in Ha by lia.
  replace (Z.min eS ez) with ez in Hb by lia.
  set (a := fst (shl_align M E ez)) in *.
  set (b := fst (shl_align S eS ez)) in *.
  change (Z.pos a + Z.pos b) with (Z.pos (a + b)).
  cbn match.
  set (f := fexp prec emax (Z.pos (digits2_pos (a + b)) + ez)).
  destruct (shl_align_spec (a + b) ez f) as [He' Hmz].
  destruct (shl_align (a + b) ez f) as [mz ez']. cbn [fst snd] in *.
  assert (s * 2 ^ (- ez') <= Z.pos mz <= (s + d) * 2 ^ (- ez')) as Hsum'.
  { rewrite Hmz, Pos2Z.inj_add, Ha, Hb, <- He'.
    pose proof (align_bounds (Z.pos M) 0 d E ez ltac:(lia) HE ltac:(lia)).
    pose proof (align_bounds (Z.pos S) s s eS ez ltac:(lia) HeS ltac:(lia)).
    apply align_bounds; [lia|lia|]. lia. }
  pose proof (binary_round_aux_bounds mz ez' s (s + d)
                ltac:(lia) ltac:(lia) Hsum Hsum') as Hrounded.
  destruct (binary_round_aux prec emax false (Z.pos mz) ez' loc_Exact)
    as [[]|[]| |[] M' E']; try done. lia.
Qed.

Lemma Math_floor_bounds (x : float) (lo hi : Z) (M : positive) (E : Z) :
  Prim2SF x = S754_finite false M E ->
  E <= 0 ->
  lo * 2 ^ (- E) <= Z.pos M <= hi * 2 ^ (- E) ->
  lo <= Math_floor x <= hi.
Proof.
  intros Hx HE [Hlo Hhi]. unfold Math_floor. rewrite Hx.
  assert (0 < 2 ^ (- E)) by (apply Z.pow_pos_nonneg; lia).
  rewrite <- Z.shiftr_opp_r, Z.shiftr_div_pow2 by lia. split.
  - apply Z.div_le_lower_bound; lia.
  - apply Z.div_le_upper_bound; lia.
Qed.

(** The delay [Math.floor(random * d + s)] for a value [random] of
    [Math.random()], with [d] and [s] integers that binary64 holds. *)
Lemma jitter_bounds (random : float) (s d : Z) (S D : positive) (eS eD : Z) :
  (0 <=? random)%float = true ->
  (random <? 1)%float = true ->
  Prim2SF (number d) = S754_finite false D eD ->
  Prim2SF (number s) = S754_finite false S eS ->
  eS <= 0 -> eD <= 0 ->
  Z.pos S = s * 2 ^ (- eS) -> Z.pos D = d * 2 ^ (- eD) ->
  0 < s -> 0 <= d -> s + d <= 2 ^ 52 ->
  s <= Math_floor (random * number d + number s)%float <= s + d.
Proof.
  intros Hle Hlt HD HS HeS HeD HS' HD' Hs Hd Hsum.
  rewrite leb_spec in Hle. rewrite ltb_spec in Hlt.
  pose proof (scaled_sum_bounds (Prim2SF random) s d S D eS eD
                (Prim2SF_valid random) Hle Hlt HeS HeD HS' HD' Hs Hd Hsum) as Hbounds.
  rewrite <- HD, <- HS, <- mul_spec, <- add_spec in Hbounds.
  destruct (Prim2SF (random * number d + number s)%float)
    as [|[]| |[] M E] eqn:Hx; try done.
  destruct Hbounds as [HE HM]. by eapply Math_floor_bounds.
Qed.

End Binary64.

Section Delay.

(** The timers a fresh one runs through. *)
Lemma widened_reachable (n : nat) :
  widened n retryTimer
  ∈ [ {| start := 5000; limit := 10000 |}; {| start := 10000; limit := 20000 |};
      {| start := 15000; limit := 30000 |}; {| start := 20000; limit := 40000 |};
      {| start := 25000; limit := 50000 |}; {| start := 30000; limit := 60000 |} ].
Proof.
  rewrite widened_fresh. destruct (le_lt_dec 5 n) as [Hn|Hn].
  - replace (Z.min (5000 * (Z.of_nat n + 1)) 30000) with 30000 by lia.
    replace (Z.min (10000 * (Z.of_nat n + 1)) 60000) with 60000 by lia.
    repeat (first [by left | right]).
  - destruct n as [|[|[|[|[|n]]]]]; [| | | | |lia]; vm_compute;
      repeat (first [by left | right]).
Qed.

(** The delay drawn from a reachable timer is between its start and its
    limit. *)
Lemma delay_bounds (n : nat) (random : float) :
  (0 <=? random)%float = true ->
  (random <? 1)%float = true ->
  let t := widened n retryTimer in
  start t <= fst (retry t random) <= limit t.
Proof.
  intros Hle Hlt t. pose proof (widened_reachable n) as Ht. fold t in Ht.
  clearbody t. rewrite !elem_of_cons, elem_of_nil in Ht.
  repeat destruct Ht as [->|Ht]; try done;
    cbn [retry fst start limit Z.sub Z.add Z.pos_sub Z.succ_double Z.pred_double
         Z.double Pos.pred_double Pos.succ Z.opp];
    (eapply jitter_bounds;
     [exact Hle|exact Hlt|vm_compute; reflexivity|vm_compute; reflexivity
     |lia|lia|reflexivity|reflexivity|lia|lia|by vm_compute]).
Qed.

(** The timer of a chain has been used once per delay scheduled. *)
Lemma chain_backoff {Q A V} (handle : handler Q A V) (q : Q)
    (inputs : list (answer A * float)) :
  let c := run handle (begin q) inputs in
  backoff c = widened (length (timers c)) retryTimer.
Proof.
  cbn zeta. unfold run.
  assert (backoff (begin q : chain Q V)
          = widened (length (timers (begin q : chain Q V))) retryTimer) as Hbegin
    by reflexivity.
  revert Hbegin. generalize (begin q : chain Q V).
  induction inputs as [|[a random] inputs IH]; intros c Hc; [done|].
  cbn [fold_left]. apply IH.
  destruct (awaited c) as [q0|] eqn:Hq; [|unfold step; by rewrite Hq].
  destruct (handle q0 a) as [logged eff] eqn:Hhandle. destruct eff.
  - by erewrite step_resolve.
  - by erewrite step_reject.
  - erewrite step_retry by done. cbn [backoff timers].
    by rewrite length_app, Nat.add_1_r, (widened_succ _ _ random), <- Hc.
  - by erewrite step_unsettled.
Qed.

End Delay.

(** C4, as the code has it. A timer starts at
    [{start: 5000, limit: 10000}]; at its use number [k] (from 0) it holds
    [start = min(5000 (k + 1), 30000)] and [limit = min(10000 (k + 1), 60000)],
    so that [start < limit], [limit <= 60000] and [start <= 30000] at every
    use and neither component ever decreases; the delay of that use is
    computed from the timer as the use finds it, the widening ([limit] plus
    10000 while below 60000, [start] plus 5000 while below 30000) comes
    after; and for a value of [Math.random()], a binary64 number at least 0
    and below 1, the delay lies between [start] and [limit], both
    included. *)
Theorem retry_timer_invariant (randoms : list float) (k : nat) (random : float) :
  randoms !! k = Some random ->
  (0 <=? random)%float = true ->
  (random <? 1)%float = true ->
  let t := widened k retryTimer in
  let t' := widened (S k) retryTimer in
  let delay := fst (retry t random) in
  uses retryTimer randoms !! k = Some (t, delay)
  /\ retry t random = (delay, t')
  /\ start t = Z.min (5000 * (Z.of_nat k + 1)) 30000
  /\ limit t = Z.min (10000 * (Z.of_nat k + 1)) 60000
  /\ start t < limit t /\ limit t <= 60000 /\ start t <= 30000
  /\ start t <= start t' /\ limit t <= limit t'
  /\ limit t' = (if limit t <? 60000 then limit t + 10000 else limit t)
  /\ start t' = (if start t <? 30000 then start t + 5000 else start t)
  /\ delay = Math_floor (random * number (limit t - start t) + number (start t))%float
  /\ start t <= delay <= limit t.
Proof.
  intros Hk Hle Hlt. cbn zeta.
  pose proof (delay_bounds k random Hle Hlt) as Hdelay. cbn zeta in Hdelay.
  rewrite (widened_succ k retryTimer random).
  rewrite (uses_lookup randoms k random) by done.
  rewrite !widened_fresh in *. cbn [start limit].
  cbn [start limit] in Hdelay.
  assert (forall t : timer,
            let t' := snd (retry t random) in
            limit t' = (if limit t <? 60000 then limit t + 10000 else limit t)
            /\ start t' = (if start t <? 30000 then start t + 5000 else start t))
    as Hwiden.
  { intros t. cbn [retry snd].
    destruct (limit t <? 60000), (start t <? 30000) eqn:Hstart;
      cbn [start limit]; rewrite ?Hstart; done. }
  match goal with
  | |- context [snd (retry ?t random)] =>
      destruct (Hwiden t) as [Hlimit Hstart]
  end.
  cbn [start limit] in Hlimit, Hstart. rewrite Hlimit, Hstart.
  split_and!; try done; try lia.
  - destruct (Z.ltb_spec (Z.min (5000 * (Z.of_nat k + 1)) 30000) 30000); lia.
  - destruct (Z.ltb_spec (Z.min (10000 * (Z.of_nat k + 1)) 60000) 60000); lia.
Qed.

Lemma retry_timer_invariant_witness :
  let randoms := [0.5%float; 0.25%float; 0.75%float] in
  randoms !! 1%nat = Some 0.25%float
  /\ uses retryTimer randoms !! 1%nat
     = Some ({| start := 10000; limit := 20000 |}, 12500)
  /\ retry {| start := 10000; limit := 20000 |} 0.25%float
     = (12500, {| start := 15000; limit := 30000 |}).
Proof.
  intros randoms.
  pose proof (retry_timer_invariant randoms 1 0.25%float eq_refl eq_refl eq_refl)
    as (Huse & Hretry & _).
  split_and!; [reflexivity|exact Huse|exact Hretry].
Defined.

(** C4 as stated fails at its upper end: the delay is not always below the
    limit. [Math.random()] may return [1 - 2^-52] (0.9999999999999998). On
    the fresh timer the product with 5000 is [5000 - 5000 * 2^-52], which
    binary64 rounds to [5000 - 2^-40]; the sum with 5000, [10000 - 2^-40],
    lies half-way between the neighbouring binary64 numbers
    [10000 - 2^-39] and [10000] and rounds to the even one, [10000]: the
    delay equals the limit. *)
Lemma delay_reaches_the_limit :
  let random := 0x1.ffffffffffffep-1%float in
  (0 <=? random)%float = true
  /\ (random <? 1)%float = true
  /\ (random * number 5000)%float = 0x1.387ffffffffffp+12%float
  /\ (random * number 5000 + number 5000)%float = 10000%float
  /\ fst (retry retryTimer random) = 10000
  /\ limit retryTimer = 10000.
Proof. repeat split. Qed.

(** * Further properties *)

(** ** The retry branch of [bulkSend] *)

Section Reissue.

Lemma retry_set_cons (data : list js) (item : bulk_item) (items : list bulk_item) :
  retry_set data (item :: items)
  = (if retriable item then pair_of data 0 else [])
    ++ concat (imap (fun j x => if retriable x then pair_of data (S j) else []) items).
Proof. reflexivity. Qed.

(** The pairs of the items from index [i] on lie, in order, in the body
    from position [2i] on. *)
Lemma retry_pairs_sublist (data : list js) (items : list bulk_item) (i : nat) :
  (2 * (i + length items) <= length data)%nat ->
  concat (imap (fun j x => if retriable x then pair_of data (i + j) else []) items)
  `sublist_of` drop (2 * i) data.
Proof.
  revert i. induction items as [|item items IH]; intros i Hlength.
  - apply sublist_nil_l.
  - cbn [length] in Hlength. cbn [imap concat]. rewrite Nat.add_0_r.
    assert (drop (2 * i) data
            = data !!! (2 * i)%nat :: data !!! (2 * i + 1)%nat
                :: drop (2 * S i) data) as ->.
    { destruct (lookup_lt_is_Some_2 data (2 * i)) as [a Ha]; [lia|].
      destruct (lookup_lt_is_Some_2 data (2 * i + 1)) as [b Hb]; [lia|].
      rewrite (list_lookup_total_correct _ _ _ Ha).
      rewrite (list_lookup_total_correct _ _ _ Hb).
      rewrite (drop_S _ _ _ Ha).
      replace (S (2 * i)) with (2 * i + 1)%nat by lia.
      rewrite (drop_S _ _ _ Hb). do 3 f_equal. lia. }
    assert (concat (imap ((fun j x => if retriable x then pair_of data (i + j) else [])
                          ∘ S) items)
            `sublist_of` drop (2 * S i) data) as Hrest.
    { erewrite imap_ext; [apply (IH (S i)); lia|].
      intros j x _. cbn. by rewrite Nat.add_succ_r. }
    destruct (retriable item).
    + unfold pair_of. cbn [app]. by do 2 apply sublist_skip.
    + cbn [app]. by do 2 apply sublist_cons.
Qed.

Lemma retry_set_length (data : list js) (items : list bulk_item) :
  length (retry_set data items) = (2 * length (filter (fun x => retriable x = true) items))%nat.
Proof.
  unfold retry_set.
  assert (forall i,
            length (concat (imap (fun j x => if retriable x then pair_of data (i + j)
                                             else []) items))
            = (2 * length (filter (fun x => retriable x = true) items))%nat) as H.
  { induction items as [|item items IH]; intros i; [done|].
    cbn [imap concat]. rewrite length_app, filter_cons.
    erewrite imap_ext; [rewrite (IH (S i))|
                        by intros j x _; cbn; rewrite Nat.add_succ_r].
    destruct (retriable item) eqn:Hitem.
    - rewrite decide_True by done. cbn. lia.
    - rewrite decide_False by congruence. cbn. lia. }
  apply (H 0%nat).
Qed.

End Reissue.

(** The retry branch of [sendData]. *)
Lemma sendData_then_retry (data : list js) (items : list bulk_item) :
  existsb fatal items = false ->
  existsb retriable items = true ->
  sendData_then data {| errors := true; items := items |}
  = ([filterResponse_called; warning], retry_with (retry_set data items)).
Proof.
  intros Hfatal%no_fatal Hretriable.
  assert (length (retry_set data items) <> 0%nat) as Hlength.
  { rewrite retry_set_length.
    apply existsb_exists in Hretriable as (item & Hin & Hitem).
    assert (item ∈ filter (fun x => retriable x = true) items) as Hin'
      by (apply list_elem_of_filter; split; [done|by apply list_elem_of_In]).
    destruct (filter _ items); [by apply elem_of_nil in Hin'|cbn; lia]. }
  unfold sendData_then, _filterResponse. cbn [errors Api.items].
  rewrite filter_loop_no_fatal by done.
  cbn [nonRetriableError Api.data app Nat.add]. fold (retry_set data items).
  by destruct (Nat.eqb_spec (length (retry_set data items)) 0).
Qed.

(** X1. The retry branch of [bulkSend]. When the response flags errors,
    none of its items is fatal and one at least is retriable, the promise
    stays as it is, [_filterResponse] and the throttled [warning] are
    called once each, and [retry] is handed the retry set: the next
    request body is made of the pairs of the retriable items and of
    nothing else, after a delay drawn from the timer of the call, which
    is widened. *)
Theorem bulkSend_reissues_the_rejected_pairs (data : list js)
    (items : list bulk_item) (c : chain (list js) bulk_result) (random : float) :
  awaited c = Some data ->
  existsb fatal items = false ->
  existsb retriable items = true ->
  let c' := step bulkSend c (fulfilled {| errors := true; items := items |}, random) in
  settled c' = settled c
  /\ awaited c' = Some (retry_set data items)
  /\ requests c' = requests c ++ [retry_set data items]
  /\ timers c' = timers c ++ [fst (retry (backoff c) random)]
  /\ backoff c' = snd (retry (backoff c) random)
  /\ events c' = events c ++ [filterResponse_called; warning].
Proof.
  intros Hc Hfatal Hretriable. cbn zeta.
  assert (bulkSend data (fulfilled {| errors := true; items := items |})
          = ([filterResponse_called; warning], retry_with (retry_set data items)))
    as Hhandle by by apply sendData_then_retry.
  by rewrite (step_retry _ _ _ _ _ _ _ Hc Hhandle).
Qed.

Lemma bulkSend_reissues_the_rejected_pairs_witness :
  let c := step bulkSend (begin sample_body)
             (fulfilled {| errors := true;
                           items := [item_created; item_rejected; item_conflict] |},
              0.5%float) in
  settled c = Pending
  /\ awaited c = Some [action 2; document 2]
  /\ requests c = [sample_body; [action 2; document 2]]
  /\ timers c = [7500]
  /\ events c = [filterResponse_called; warning].
Proof.
  cbn zeta.
  pose proof (bulkSend_reissues_the_rejected_pairs sample_body
                [item_created; item_rejected; item_conflict]
                (begin sample_body) 0.5%float eq_refl eq_refl eq_refl)
    as (H1 & H2 & H3 & H4 & _ & H6).
  split_and!; [exact H1|exact H2|exact H3|exact H4|exact H6].
Defined.

(** X2. The body [_filterResponse] returns for resubmission has an even
    length, of two entries per item at most; and when the request body
    holds a pair for every item of the response, it is a subsequence of
    the request body: a retry sends nothing that the request did not
    hold, and in the same order. *)
Theorem retry_body_is_part_of_the_request_body (data : list js)
    (results : bulk_result) :
  let response := _filterResponse data results in
  (length (Api.data response) <= 2 * length (items results))%nat
  /\ Nat.Even (length (Api.data response))
  /\ ((2 * length (items results) <= length data)%nat ->
      Api.data response `sublist_of` data).
Proof.
  cbn zeta. unfold _filterResponse.
  destruct (existsb fatal (items results)) eqn:Hfatal.
  - apply first_fatal in Hfatal as (before & item & after & -> & Hbefore & Hitem).
    rewrite filter_loop_first_fatal by done. cbn. split_and!.
    + lia.
    + by exists 0%nat.
    + intros _. apply sublist_nil_l.
  - apply no_fatal in Hfatal. rewrite filter_loop_no_fatal by done.
    cbn [Api.data app Nat.add]. fold (retry_set data (items results)).
    rewrite retry_set_length. split_and!.
    + pose proof (length_filter (fun x => retriable x = true) (items results)). lia.
    + by eexists.
    + intros Hlength.
      pose proof (retry_pairs_sublist data (items results) 0) as H.
      cbn in H. apply H. lia.
Qed.

(** X3. A transport error that reaches the [.catch] of [search] or of
    [count], that [parseError] can read and whose body does not report a
    reduce-search-phase failure, rejects the promise with the normalized
    reason, logged once through [logger.error]; no retry is scheduled,
    also when the error is a rejected execution, which the point
    operations would retry. *)
Theorem searchES_rejects_transport_errors {Q V} (value : search_response -> V)
    (c : chain Q V) (query : Q) (err : js) (random : float) :
  awaited c = Some query ->
  readable err = true ->
  is_str (lodash_get err ["body"; "error"; "type"]) "reduce_search_phase_exception"
  = false ->
  exists errMsg,
    parseError err = Returns errMsg
    /\ step (searchES value) c (failed err, random)
       = {| settled := Rejected errMsg; backoff := backoff c; awaited := None;
            requests := requests c; timers := timers c;
            events := events c ++ [logger_error [errMsg]] |}.
Proof.
  intros Hc Herr Htype.
  destruct (searchES_catch_cases (Q := Q) (V := V) err Herr)
    as (errMsg & HerrMsg & Hother & _).
  exists errMsg. split; [done|].
  eapply step_reject; [done|]. cbn. by apply Hother.
Qed.

Lemma searchES_rejects_transport_errors_witness :
  let c := step count_handler (begin 1%positive) (failed error_rejected, 0.5%float) in
  backpressure error_rejected = true
  /\ settled c = Rejected (JStr "Error: [es_rejected_execution_exception]")
  /\ requests c = [1%positive]
  /\ timers c = []
  /\ events c = [logger_error [JStr "Error: [es_rejected_execution_exception]"]].
Proof.
  cbn zeta.
  destruct (searchES_rejects_transport_errors (fun data => total (response_hits data))
              (begin 1%positive) 1%positive error_rejected 0.5%float
              eq_refl eq_refl eq_refl) as (errMsg & HerrMsg & Hstep).
  unfold count_handler. rewrite Hstep.
  injection HerrMsg as <-. by split_and!.
Defined.

(** X4. [search] and [count] resolve with the value of the first
    response that reports no failed shard, after any number of responses
    whose shard failures are all rejected executions: the same query was
    sent once more than there were such responses, one delay was
    scheduled for each of them, and nothing was logged. *)
Theorem searchES_resolves_after_rejected_shards {Q V}
    (value : search_response -> V) (query : Q)
    (inputs : list (answer search_response * float))
    (data : search_response) (random : float) :
  Forall (fun input =>
            exists d, fst input = fulfilled d
                      /\ 0 < shards_failed (_shards d)
                      /\ uniq (failure_types d) = [REJECTED]) inputs ->
  shards_failed (_shards data) <= 0 ->
  let c := run (searchES value) (begin query) (inputs ++ [(fulfilled data, random)]) in
  settled c = Resolved (value data)
  /\ awaited c = None
  /\ requests c = replicate (S (length inputs)) query
  /\ length (timers c) = length inputs
  /\ events c = [].
Proof.
  intros Hinputs Hdata. cbn zeta.
  assert (forall c : chain Q V,
            awaited c = Some query ->
            let c' := run (searchES value) c (inputs ++ [(fulfilled data, random)]) in
            settled c' = Resolved (value data)
            /\ awaited c' = None
            /\ requests c' = requests c ++ replicate (length inputs) query
            /\ length (timers c') = (length (timers c) + length inputs)%nat
            /\ events c' = events c) as H.
  { induction Hinputs as [|[a r] inputs (d & Ha & Hd & Htypes) _ IH]; intros c Hc.
    - cbn. erewrite step_resolve; [|done|].
      + cbn. by rewrite !app_nil_r, Nat.add_0_r.
      + cbn. unfold searchES_then.
        by destruct (Z.ltb_spec 0 (shards_failed (_shards data))); [lia|].
    - cbn in Ha. subst a. cbn zeta. unfold run. cbn [app fold_left].
      fold (run (searchES value) (step (searchES value) c (fulfilled d, r))
              (inputs ++ [(fulfilled data, random)])).
      assert (searchES value query (fulfilled d) = ([], retry_with query)) as Hhandle.
      { cbn. rewrite searchES_then_cases by done.
        by rewrite bool_decide_eq_true_2. }
      rewrite (step_retry _ _ _ _ _ _ _ Hc Hhandle).
      match goal with
      | |- context [run (searchES value) ?c1 _] =>
          destruct (IH c1 eq_refl) as (-> & -> & -> & -> & ->)
      end.
      cbn. rewrite <- app_assoc, length_app, app_nil_r. cbn.
      split_and!; try done. lia. }
  destruct (H (begin query) eq_refl) as (-> & -> & -> & -> & ->).
  by split_and!.
Qed.

Lemma searchES_resolves_after_rejected_shards_witness :
  let data := {| _shards := {| shards_failed := 0; failures := [] |};
                 response_hits := {| total := JNum 42; hits_hits := [] |} |} in
  let c := run count_handler (begin 1%positive)
             [(fulfilled (response_with_failures [REJECTED; REJECTED]), 0.5%float);
              (fulfilled data, 0.5%float)] in
  settled c = Resolved (JNum 42)
  /\ requests c = [1%positive; 1%positive]
  /\ timers c = [7500].
Proof.
  cbn zeta.
  epose proof (searchES_resolves_after_rejected_shards
                 (fun data => total (response_hits data)) 1%positive
                 [(fulfilled (response_with_failures [REJECTED; REJECTED]), 0.5%float)]
                 _ 0.5%float _ _) as (H1 & _ & H3 & _).
  split_and!; [exact H1|exact H3|reflexivity].
  Unshelve.
  - repeat constructor. eexists. by split_and!.
  - cbn. lia.
Defined.

(** X5. Whatever the wrapper and whatever the client answers, with every
    value of [Math.random()] at least 0 and below 1: a call has sent one
    request more than it has scheduled delays, it has scheduled one delay
    per answer at most, and its delay number [k] (from 0) lies between
    [min(5000 (k + 1), 30000)] and [min(10000 (k + 1), 60000)]
    milliseconds. *)
Theorem every_scheduled_delay_is_bounded {Q A V} (handle : handler Q A V) (q : Q)
    (inputs : list (answer A * float)) :
  Forall (fun input => (0 <=? snd input)%float = true
                       /\ (snd input <? 1)%float = true) inputs ->
  let c := run handle (begin q) inputs in
  length (requests c) = S (length (timers c))
  /\ (length (timers c) <= length inputs)%nat
  /\ forall k delay,
       timers c !! k = Some delay ->
       Z.min (5000 * (Z.of_nat k + 1)) 30000 <= delay
       <= Z.min (10000 * (Z.of_nat k + 1)) 60000.
Proof.
  intros Hinputs. cbn zeta.
  set (bounded := fun (c : chain Q V) =>
         forall k delay,
           timers c !! k = Some delay ->
           Z.min (5000 * (Z.of_nat k + 1)) 30000 <= delay
           <= Z.min (10000 * (Z.of_nat k + 1)) 60000).
  assert (forall c : chain Q V,
            backoff c = widened (length (timers c)) retryTimer ->
            length (requests c) = S (length (timers c)) ->
            bounded c ->
            let c' := run handle c inputs in
            length (requests c') = S (length (timers c'))
            /\ (length (timers c') <= length (timers c) + length inputs)%nat
            /\ bounded c') as H.
  { induction Hinputs as [|[a random] inputs [Hle Hlt] _ IH];
      intros c Hc Hcount Hbounded.
    - cbn. split_and!; [done|lia|done].
    - cbn zeta. unfold run. cbn [fold_left length].
      fold (run handle (step handle c (a, random)) inputs).
      destruct (awaited c) as [q0|] eqn:Hq.
      2:{ unfold step at 1 2 3 4. rewrite Hq.
          destruct (IH c Hc Hcount Hbounded) as (? & ? & ?).
          split_and!; [done|lia|done]. }
      destruct (handle q0 a) as [logged eff] eqn:Hhandle. destruct eff.
      + erewrite step_resolve by done.
        match goal with
        | |- context [run handle ?c1 inputs] =>
            destruct (IH c1 Hc Hcount Hbounded) as (? & ? & ?)
        end.
        cbn in *. split_and!; [done|lia|done].
      + erewrite step_reject by done.
        match goal with
        | |- context [run handle ?c1 inputs] =>
            destruct (IH c1 Hc Hcount Hbounded) as (? & ? & ?)
        end.
        cbn in *. split_and!; [done|lia|done].
      + erewrite step_retry by done.
        match goal with
        | |- context [run handle ?c1 inputs] =>
            destruct (IH c1) as (? & Hlength & ?)
        end.
        * cbn [backoff timers].
          by rewrite length_app, Nat.add_1_r, (widened_succ _ _ random), <- Hc.
        * cbn [requests timers]. rewrite !length_app. cbn [length]. lia.
        * intros k delay. cbn [timers].
          destruct (decide (k < length (timers c))%nat) as [Hk|Hk].
          { rewrite lookup_app_l by done. apply Hbounded. }
          rewrite lookup_app_r by lia.
          destruct (k - length (timers c))%nat as [|n] eqn:Hn; [|done].
          cbn. intros [= <-]. rewrite Hc.
          assert (k = length (timers c)) as -> by lia.
          pose proof (delay_bounds (length (timers c)) random Hle Hlt) as Hdelay.
          cbn zeta in Hdelay. rewrite widened_fresh in Hdelay.
          rewrite widened_fresh. exact Hdelay.
        * cbn [timers] in Hlength. rewrite length_app in Hlength.
          cbn [length] in Hlength. split_and!; [done|lia|done].
      + erewrite step_unsettled by done.
        match goal with
        | |- context [run handle ?c1 inputs] =>
            destruct (IH c1 Hc Hcount Hbounded) as (? & ? & ?)
        end.
        cbn in *. split_and!; [done|lia|done]. }
  destruct (H (begin q)) as (Hcount & Hlength & Hbounded);
    [done|done|by intros k d|].
  cbn in Hlength. split_and!; [done|lia|exact Hbounded].
Qed.

Lemma every_scheduled_delay_is_bounded_witness :
  let c := run bulkSend (begin sample_body)
             [(fulfilled {| errors := true; items := [item_rejected] |}, 0.5%float);
              (fulfilled {| errors := true; items := [item_rejected] |}, 0.25%float)] in
  timers c = [7500; 12500]
  /\ length (requests c) = 3%nat
  /\ 5000 <= 7500 <= 10000 /\ 10000 <= 12500 <= 20000.
Proof.
  cbn zeta.
  epose proof (every_scheduled_delay_is_bounded bulkSend sample_body
                 [(fulfilled {| errors := true; items := [item_rejected] |}, 0.5%float);
                  (fulfilled {| errors := true; items := [item_rejected] |}, 0.25%float)]
                 _) as (Hcount & _ & Hbounded).
  split_and!; [reflexivity|exact Hcount
               |apply (Hbounded 0%nat 7500 eq_refl)|apply (Hbounded 0%nat 7500 eq_refl)
               |apply (Hbounded 1%nat 12500 eq_refl)|apply (Hbounded 1%nat 12500 eq_refl)].
  Unshelve. by repeat constructor.
Defined.



(** X23. [bulkSend] resolves with the response of its last request
    only. After any number of responses that flag errors, with retriable
    items and no fatal one, a response that flags none resolves the
    promise with that response as it came: one request was sent per
    response, one delay scheduled and one warning asked for per retry;
    what the earlier responses reported is not part of the value. *)
Theorem bulkSend_resolves_with_the_last_response (data : list js)
    (rounds : list (answer bulk_result * float)) (final : bulk_result)
    (random : float) :
  Forall (fun input =>
            exists results,
              fst input = fulfilled results
              /\ errors results = true
              /\ existsb fatal (items results) = false
              /\ existsb retriable (items results) = true) rounds ->
  errors final = false ->
  let c := run bulkSend (begin data) (rounds ++ [(fulfilled final, random)]) in
  settled c = Resolved final
  /\ awaited c = None
  /\ length (requests c) = S (length rounds)
  /\ length (timers c) = length rounds
  /\ events c = concat (map (fun _ => [filterResponse_called; warning]) rounds).
Proof.
  intros Hrounds Hfinal. cbn zeta.
  assert (forall (c : chain (list js) bulk_result) body,
            awaited c = Some body ->
            let c' := run bulkSend c (rounds ++ [(fulfilled final, random)]) in
            settled c' = Resolved final
            /\ awaited c' = None
            /\ length (requests c') = (length (requests c) + length rounds)%nat
            /\ length (timers c') = (length (timers c) + length rounds)%nat
            /\ events c'
               = events c
                 ++ concat (map (fun _ => [filterResponse_called; warning]) rounds))
    as H.
  { induction Hrounds as [|[a r] rounds (results & Ha & Herrors & Hfatal & Hretriable)
                            _ IH]; intros c body Hc.
    - cbn. erewrite step_resolve; [|done|].
      + cbn. rewrite !app_nil_r, !Nat.add_0_r. done.
      + cbn. unfold sendData_then. by rewrite Hfinal.
    - cbn in Ha. subst a. cbn zeta. unfold run. cbn [app fold_left].
      fold (run bulkSend (step bulkSend c (fulfilled results, r))
              (rounds ++ [(fulfilled final, random)])).
      destruct results as [flag items]. cbn in Herrors, Hfatal, Hretriable.
      subst flag.
      assert (bulkSend body (fulfilled {| errors := true; items := items |})
              = ([filterResponse_called; warning], retry_with (retry_set body items)))
        as Hhandle by by apply sendData_then_retry.
      rewrite (step_retry _ _ _ _ _ _ _ Hc Hhandle).
      match goal with
      | |- context [run bulkSend ?c1 _] =>
          destruct (IH c1 _ eq_refl) as (-> & -> & -> & -> & ->)
      end.
      cbn [requests timers events]. rewrite !length_app. cbn [length map concat].
      rewrite <- app_assoc. split_and!; try done; lia. }
  destruct (H (begin data) data eq_refl) as (-> & -> & -> & -> & ->).
  by split_and!.
Qed.

Lemma bulkSend_resolves_with_the_last_response_witness :
  let first := {| errors := true; items := [item_created; item_rejected; item_rejected] |} in
  let final := {| errors := false; items := [item_created; item_created] |} in
  let c := run bulkSend (begin sample_body)
             [(fulfilled first, 0.5%float); (fulfilled final, 0.5%float)] in
  settled c = Resolved final
  /\ requests c = [sample_body; [action 2; document 2; action 3; document 3]]
  /\ events c = [filterResponse_called; warning].
Proof.
  cbn zeta.
  epose proof (bulkSend_resolves_with_the_last_response sample_body
                 [(fulfilled {| errors := true;
                                items := [item_created; item_rejected; item_rejected] |},
                   0.5%float)]
                 {| errors := false; items := [item_created; item_created] |}
                 0.5%float _ eq_refl) as (Hsettled & _ & _ & _ & Hevents).
  split_and!; [exact Hsettled|reflexivity|exact Hevents].
  Unshelve. repeat constructor. eexists. by split_and!.
Defined.

(** ** [buildQuery] and [verifyIndex] *)

Section Query.

Lemma read_plain (v : js) (k : string) : plain v = true -> plain (read v k) = true.
Proof. destruct v; try done. cbn. apply field_plain. Qed.

Lemma keyed_plain (name value : js) : plain value = true -> plain (keyed name value) = true.
Proof. unfold keyed. intros H. destruct (String.eqb _ _); cbn; by rewrite ?H. Qed.

(** [buildQuery] on arguments that are neither null nor undefined. *)
Lemma buildQuery_defined (opConfig msg : js) :
  nullish opConfig = false -> nullish msg = false ->
  buildQuery opConfig msg
  = Returns
      (JObj
         ([("index", read opConfig "index"); ("size", read msg "count");
           ("body",
            JObj [("query",
                   JObj [("bool",
                          JObj [("must",
                                 JArr
                                   ((if truthy (read msg "start") && truthy (read msg "end")
                                     then [JObj [("range",
                                                  keyed (read opConfig "date_field_name")
                                                    (JObj [("gte", read msg "start");
                                                           ("lt", read msg "end")]))]]
                                     else [])
                                    ++ (if truthy (read msg "key")
                                        then [JObj [("wildcard",
                                                     JObj [("_uid", read msg "key")])]]
                                        else [])
                                    ++ (if truthy (read opConfig "query")
                                        then [JObj [("query_string",
                                                     JObj [("query", read opConfig "query")])]]
                                        else [])))])])])]
          ++ (if truthy (read opConfig "fields")
              then [("_source", read opConfig "fields")]
              else []))).
Proof.
  intros HopConfig Hmsg. unfold buildQuery, _buildRangeQuery.
  rewrite !(prop_returns opConfig), !(prop_returns msg) by done. cbn.
  destruct (truthy (read msg "start") && truthy (read msg "end"));
    rewrite ?(prop_returns opConfig) by done; cbn;
    destruct (truthy (read msg "key")), (truthy (read opConfig "query")),
      (truthy (read opConfig "fields")); reflexivity.
Qed.

End Query.

(** X7. [buildQuery] raises exactly when [opConfig] or [msg] is null or
    undefined; on any other pair of arguments it returns a query. *)
Theorem buildQuery_raises_on_missing_arguments (opConfig msg : js) :
  returns (buildQuery opConfig msg) = negb (nullish opConfig) && negb (nullish msg).
Proof.
  destruct (nullish opConfig) eqn:HopConfig.
  { by destruct opConfig. }
  destruct (nullish msg) eqn:Hmsg.
  { unfold buildQuery. rewrite !(prop_returns opConfig) by done. by destruct msg. }
  by rewrite buildQuery_defined.
Qed.

(** X8. On arguments that are neither null nor undefined, [buildQuery]
    returns a query with [index = opConfig.index], [size = msg.count],
    [_source = opConfig.fields] when that is truthy and no [_source]
    otherwise, and whose [body.query.bool.must] holds, in this order and
    nothing else: a [range] clause on [opConfig.date_field_name] with
    [gte = msg.start] and [lt = msg.end] when both are truthy (a bound
    given alone, or a start of 0, gives no range clause), a [wildcard]
    clause on [_uid] when [msg.key] is truthy, a [query_string] clause
    when [opConfig.query] is truthy. *)
Theorem buildQuery_filters (opConfig msg : js) :
  nullish opConfig = false -> nullish msg = false ->
  exists query,
    buildQuery opConfig msg = Returns query
    /\ read query "index" = read opConfig "index"
    /\ read query "size" = read msg "count"
    /\ read query "_source"
       = (if truthy (read opConfig "fields") then read opConfig "fields" else JUndefined)
    /\ lodash_get query ["body"; "query"; "bool"; "must"]
       = JArr
           ((if truthy (read msg "start") && truthy (read msg "end")
             then [JObj [("range",
                          keyed (read opConfig "date_field_name")
                            (JObj [("gte", read msg "start"); ("lt", read msg "end")]))]]
             else [])
            ++ (if truthy (read msg "key")
                then [JObj [("wildcard", JObj [("_uid", read msg "key")])]]
                else [])
            ++ (if truthy (read opConfig "query")
                then [JObj [("query_string", JObj [("query", read opConfig "query")])]]
                else [])).
Proof.
  intros HopConfig Hmsg. eexists. split; [by apply buildQuery_defined|].
  destruct (truthy (read opConfig "fields")); by split_and!.
Qed.

Lemma buildQuery_filters_witness :
  exists query,
    buildQuery (JObj [("index", JStr "logs"); ("date_field_name", JStr "created");
                      ("query", JStr "level:error")])
               (JObj [("start", JNum 0); ("end", JNum 1000); ("count", JNum 50)])
    = Returns query
    /\ read query "size" = JNum 50
    /\ read query "_source" = JUndefined
    /\ lodash_get query ["body"; "query"; "bool"; "must"]
       = JArr [JObj [("query_string", JObj [("query", JStr "level:error")])]].
Proof.
  destruct (buildQuery_filters
              (JObj [("index", JStr "logs"); ("date_field_name", JStr "created");
                     ("query", JStr "level:error")])
              (JObj [("start", JNum 0); ("end", JNum 1000); ("count", JNum 50)])
              eq_refl eq_refl) as (query & Hquery & _ & Hsize & Hsource & Hmust).
  exists query. split_and!; [exact Hquery|exact Hsize|exact Hsource|exact Hmust].
Defined.

(** X9. The query [buildQuery] returns for arguments that hold no
    function holds none either, and [JSON.stringify] returns on it. *)
Theorem buildQuery_of_plain_data_serializes (opConfig msg query : js) :
  plain opConfig = true -> plain msg = true ->
  buildQuery opConfig msg = Returns query ->
  plain query = true /\ returns (JSON_stringify query) = true.
Proof.
  intros HopConfig Hmsg Hquery.
  assert (plain query = true) as Hplain; [|by split; [|apply JSON_stringify_plain]].
  assert (nullish opConfig = false) as HopConfig'.
  { destruct opConfig; try done. }
  assert (nullish msg = false) as Hmsg'.
  { destruct opConfig, msg; try done. }
  rewrite buildQuery_defined in Hquery by done. injection Hquery as <-.
  pose proof (read_plain opConfig "index" HopConfig).
  pose proof (read_plain opConfig "fields" HopConfig).
  pose proof (read_plain opConfig "query" HopConfig).
  pose proof (read_plain msg "count" Hmsg).
  pose proof (read_plain msg "start" Hmsg).
  pose proof (read_plain msg "end" Hmsg).
  pose proof (read_plain msg "key" Hmsg).
  pose proof (keyed_plain (read opConfig "date_field_name")
                (JObj [("gte", read msg "start"); ("lt", read msg "end")])) as Hkeyed.
  destruct (truthy (read msg "start") && truthy (read msg "end")),
    (truthy (read msg "key")), (truthy (read opConfig "query")),
    (truthy (read opConfig "fields")); cbn in *;
    repeat match goal with H : plain _ = true |- _ => rewrite H; clear H end;
    cbn; rewrite ?Hkeyed; cbn; try done;
    by repeat match goal with H : plain _ = true |- _ => rewrite H end.
Qed.

Lemma buildQuery_of_plain_data_serializes_witness :
  exists query,
    buildQuery (JObj [("index", JStr "logs"); ("fields", JArr [JStr "a"; JStr "b"])])
               (JObj [("key", JStr "a*"); ("count", JNum 10)])
    = Returns query
    /\ plain query = true
    /\ JSON_stringify query
       = Returns (JStr (String.concat (String dquote "")
           ["{"; "index"; ":"; "logs"; ","; "size"; ":10,"; "body"; ":{"; "query"; ":{";
            "bool"; ":{"; "must"; ":[{"; "wildcard"; ":{"; "_uid"; ":"; "a*";
            "}}]}}},"; "_source"; ":["; "a"; ","; "b"; "]}"])).
Proof.
  eexists. split; [reflexivity|].
  split; [|reflexivity].
  eapply (buildQuery_of_plain_data_serializes
            (JObj [("index", JStr "logs"); ("fields", JArr [JStr "a"; JStr "b"])])
            (JObj [("key", JStr "a*"); ("count", JNum 10)])); reflexivity.
Defined.

Section Indices.

Variable RegExp : string -> option (string -> bool).

Lemma windowSize_truthy (value size : js) :
  windowSize value = Returns size -> truthy size = true.
Proof.
  unfold windowSize.
  destruct (prop value "settings") as [settings|]; [|done]. cbn.
  destruct (prop settings "index") as [index|]; [|done]. cbn.
  destruct (prop index "max_result_window") as [m|]; [|done]. cbn.
  destruct (truthy m) eqn:Hm; by intros [= <-].
Qed.

(** The loop of [_.forOwn] collects, after what it was given, the
    entries of the properties whose key matches, in order. *)
Lemma forOwn_filter (regex : string -> bool) (fields : list (string * js))
    (wasFound : bool) (results : list js) :
  forOwn regex fields wasFound results
  = (entries ← mapM (fun kv => size ← windowSize (snd kv);
                               Returns (window (JStr (fst kv)) size))
                    (filter (fun kv => regex (fst kv) = true) fields);
     Returns (wasFound || existsb (fun kv => regex (fst kv)) fields,
              results ++ entries)).
Proof.
  revert wasFound results.
  induction fields as [|[key value] fields IH]; intros wasFound results.
  - cbn. by rewrite orb_false_r, app_nil_r.
  - cbn [forOwn existsb fst]. rewrite filter_cons. cbn [fst].
    destruct (regex key) eqn:Hkey.
    + rewrite decide_True by done. cbn [mapM snd fst].
      destruct (windowSize value) as [size|]; [|done]. cbn.
      rewrite IH. destruct (mapM _ _) as [entries|]; [|done]. cbn.
      by rewrite orb_true_r, <- app_assoc.
    + rewrite decide_False by congruence. by rewrite IH.
Qed.

End Indices.

(** X10. When the pattern compiles and [indexObj] holds nothing truthy
    under [name], [verifyIndex] reports the own properties whose key
    matches the pattern, in enumeration order, each under its key with
    its window size; [found] tells whether one key at least matches; and
    the call raises exactly when one of the matching properties has no
    [settings.index] to read. *)
Theorem verifyIndex_reports_the_matching_indices
    (RegExp : string -> option (string -> bool))
    (indexObj : list (string * js)) (name : js) (regex : string -> bool) :
  RegExp (source name) = Some regex ->
  truthy (member indexObj (ToString name)) = false ->
  verifyIndex RegExp indexObj name
  = (entries ← mapM (fun kv => size ← windowSize (snd kv);
                               Returns (window (JStr (fst kv)) size))
                    (filter (fun kv => regex (fst kv) = true) indexObj);
     Returns (JObj [("found", JBool (existsb (fun kv => regex (fst kv)) indexObj));
                    ("indexWindowSize", JArr entries)])).
Proof.
  intros Hregex Hmember. unfold verifyIndex. rewrite Hregex, Hmember.
  rewrite forOwn_filter. by destruct (mapM _ _).
Qed.

Lemma verifyIndex_reports_the_matching_indices_witness :
  verifyIndex literal_RegExp sample_settings (JStr "logs-")
  = Returns (JObj [("found", JBool true);
                   ("indexWindowSize",
                    JArr [window (JStr "logs-2017.01") (JStr "50000");
                          window (JStr "logs-2017.02") (JNum 10000)])]).
Proof.
  by rewrite (verifyIndex_reports_the_matching_indices literal_RegExp sample_settings
                (JStr "logs-") (occurs "logs-") eq_refl eq_refl).
Defined.

(** X11. Whenever [verifyIndex] returns, [found] is true exactly when
    [indexWindowSize] is not empty; every entry has a truthy [windowSize]
    (10000 stands for a missing, zero or empty [max_result_window]) and a
    name that is either [name] itself or the key of an own property of
    [indexObj]. *)
Theorem verifyIndex_result_shape (RegExp : string -> option (string -> bool))
    (indexObj : list (string * js)) (name index : js) :
  verifyIndex RegExp indexObj name = Returns index ->
  exists wasFound entries,
    index = JObj [("found", JBool wasFound); ("indexWindowSize", JArr entries)]
    /\ (wasFound = true <-> entries <> [])
    /\ Forall (fun entry =>
                 truthy (read entry "windowSize") = true
                 /\ (read entry "name" = name
                     \/ exists key value,
                          read entry "name" = JStr key /\ (key, value) ∈ indexObj))
              entries.
Proof.
  unfold verifyIndex. destruct (RegExp (source name)) as [regex|]; [|done].
  destruct (truthy (member indexObj (ToString name))).
  - destruct (windowSize _) as [size|] eqn:Hsize; [|done]. cbn. intros [= <-].
    exists true, [window name size]. split_and!; [done|done|].
    repeat constructor. cbn. by eapply windowSize_truthy.
  - rewrite forOwn_filter.
    destruct (mapM _ _) as [entries|] eqn:Hentries; [|done]. cbn. intros [= <-].
    eexists _, entries. split; [done|].
    assert (forall fields entries,
              mapM (fun kv => size ← windowSize (snd kv);
                              Returns (window (JStr (fst kv)) size)) fields
              = Returns entries ->
              length entries = length fields
              /\ Forall (fun entry =>
                           truthy (read entry "windowSize") = true
                           /\ exists key value,
                                read entry "name" = JStr key /\ (key, value) ∈ fields)
                        entries) as Hshape.
    { clear. induction fields as [|[key value] fields IH]; intros entries.
      - cbn. by intros [= <-].
      - cbn. destruct (windowSize value) as [size|] eqn:Hsize; [|done]. cbn.
        destruct (mapM _ fields) as [rest|] eqn:Hrest; [|done]. cbn.
        intros [= <-]. destruct (IH rest eq_refl) as [Hlength Hrest'].
        split; [by cbn; f_equal|]. constructor.
        + cbn. split; [by eapply windowSize_truthy|].
          exists key, value. split; [done|left].
        + eapply Forall_impl; [exact Hrest'|]. cbn.
          intros entry (? & k & v & ? & ?). split; [done|].
          exists k, v. split; [done|by right]. }
    destruct (Hshape _ _ Hentries) as [Hlength Hall]. split.
    + rewrite <- (length_zero_iff_nil entries), Hlength.
      rewrite length_zero_iff_nil. split.
      * intros (kv & Hin & Hkv)%existsb_exists Hnil.
        assert (kv ∈ filter (fun kv => regex (fst kv) = true) indexObj) as Hin'
          by (apply list_elem_of_filter; split; [done|by apply list_elem_of_In]).
        rewrite Hnil in Hin'. by apply elem_of_nil in Hin'.
      * intros Hnil. destruct (filter _ indexObj) as [|kv rest] eqn:Hfilter; [done|].
        assert (kv ∈ filter (fun kv => regex (fst kv) = true) indexObj) as Hin
          by (rewrite Hfilter; left).
        apply list_elem_of_filter in Hin as [Hkv Hin].
        apply existsb_exists. exists kv. split; [by apply list_elem_of_In|done].
    + eapply Forall_impl; [exact Hall|]. cbn.
      intros entry (? & k & v & ? & [_ Hin]%list_elem_of_filter). split; [done|].
      right. by exists k, v.
Qed.

Lemma verifyIndex_result_shape_witness :
  exists wasFound entries,
    verifyIndex literal_RegExp sample_settings (JStr "events")
    = Returns (JObj [("found", JBool wasFound); ("indexWindowSize", JArr entries)])
    /\ (wasFound = true <-> entries <> [])
    /\ entries = [window (JStr "events") (JNum 10000)].
Proof.
  destruct (verifyIndex_result_shape literal_RegExp sample_settings (JStr "events") _
              eq_refl) as (wasFound & entries & [= <- <-] & Hfound & _).
  eexists _, _. split_and!; [reflexivity|exact Hfound|reflexivity].
Defined.

(** X12. [verifyIndex] raises, rather than reporting an index that is
    not found or the indices that match, when [name] is the name of a
    member of [Object.prototype] ([constructor], [toString], [valueOf],
    ...) that [indexObj] does not hold itself: the inherited member is
    truthy and has no [settings]. *)
Theorem verifyIndex_raises_on_inherited_name
    (RegExp : string -> option (string -> bool))
    (indexObj : list (string * js)) (name : js) :
  ToString name ∈ Object_prototype ->
  own (ToString name) indexObj = None ->
  verifyIndex RegExp indexObj name = Throws.
Proof.
  intros Hname Hown. unfold verifyIndex, member.
  destruct (RegExp (source name)); [|done]. rewrite Hown.
  destruct (String.eqb (ToString name) "__proto__"); [done|].
  by rewrite bool_decide_eq_true_2.
Qed.

Lemma verifyIndex_raises_on_inherited_name_witness :
  let indexObj := [("constructor-2017", settings_of JUndefined)] in
  occurs "constructor" "constructor-2017" = true
  /\ verifyIndex literal_RegExp indexObj (JStr "constructor") = Throws.
Proof.
  cbn zeta. split; [reflexivity|].
  apply (verifyIndex_raises_on_inherited_name literal_RegExp
           [("constructor-2017", settings_of JUndefined)] (JStr "constructor"));
    [|reflexivity].
  unfold Object_prototype. cbn. left.
Defined.

(** ** [_checkVersion] *)

Section Versions.

(** The number of binary digits of a mantissa is read off its bounds. *)
Lemma digits2_pos_unique (m : positive) (n : Z) :
  2 ^ (n - 1) <= Z.pos m < 2 ^ n -> Z.pos (digits2_pos m) = n.
Proof.
  intros [Hlow Hhigh]. pose proof (digits2_pos_bounds m) as [Hlow' Hhigh'].
  assert (0 < n).
  { destruct (Z.ltb_spec 0 n); [done|].
    destruct (Z.eq_dec n 0) as [->|]; [cbn in Hhigh; lia|].
    rewrite Z.pow_neg_r in Hhigh by lia. lia. }
  destruct (Z.lt_trichotomy (Z.pos (digits2_pos m)) n) as [Hlt|[Heq|Hgt]]; [|done|].
  - assert (2 ^ Z.pos (digits2_pos m) <= 2 ^ (n - 1))
      by (apply Z.pow_le_mono_r; lia). lia.
  - assert (2 ^ n <= 2 ^ (Z.pos (digits2_pos m) - 1))
      by (apply Z.pow_le_mono_r; lia). lia.
Qed.

(** An integer below [2 ^ 53] is a binary64 number: its mantissa scaled
    to 53 bits. *)
Lemma number_exact (p : positive) :
  Z.pos p < 2 ^ 53 ->
  exists mz : positive,
    Z.pos mz = Z.pos p * 2 ^ (53 - Z.pos (digits2_pos p))
    /\ Prim2SF (number (Z.pos p))
       = S754_finite false mz (Z.pos (digits2_pos p) - 53).
Proof.
  intros Hp. pose proof (digits2_pos_bounds p) as [Hlow Hhigh].
  set (d := Z.pos (digits2_pos p)) in *.
  assert (1 <= d <= 53) as Hd.
  { split; [lia|]. destruct (Z.leb_spec d 53); [done|].
    assert (2 ^ 53 <= 2 ^ (d - 1)) by (apply Z.pow_le_mono_r; lia). lia. }
  unfold number, binary_normalize, binary_round.
  destruct (shl_align_spec p 0 (fexp prec emax (Z.pos (digits2_pos p) + 0)))
    as [Hez Hmz].
  destruct (shl_align _ _ _) as [mz ez]. cbn [fst snd] in Hez, Hmz.
  fold d in Hez, Hmz. rewrite fexp_binary64 in Hez, Hmz.
  replace (Z.min 0 (Z.max (d + 0 - 53) (-1074))) with (d - 53) in * by lia.
  replace (0 - (d - 53)) with (53 - d) in Hmz by lia. subst ez.
  exists mz. split; [done|].
  assert (Z.pos (digits2_pos mz) = 53) as Hdigits.
  { apply digits2_pos_unique. rewrite Hmz.
    assert (2 ^ (53 - 1) = 2 ^ (d - 1) * 2 ^ (53 - d)) as ->
      by (rewrite <- Z.pow_add_r by lia; f_equal; lia).
    assert (2 ^ 53 = 2 ^ d * 2 ^ (53 - d)) as ->
      by (rewrite <- Z.pow_add_r by lia; f_equal; lia).
    assert (0 < 2 ^ (53 - d)) by (apply Z.pow_pos_nonneg; lia). nia. }
  assert (binary_round_aux prec emax false (Z.pos mz) (d - 53) loc_Exact
          = S754_finite false mz (d - 53)) as ->.
  { unfold binary_round_aux, shr_fexp. cbn [Zdigits2]. rewrite Hdigits.
    rewrite fexp_binary64.
    replace (Z.max (53 + (d - 53) - 53) (-1074) - (d - 53)) with 0 by lia.
    cbn [shr shr_record_of_loc shr_m loc_of_shr_record shr_r shr_s
         round_nearest_even Zdigits2].
    rewrite Hdigits, fexp_binary64.
    replace (Z.max (53 + (d - 53) - 53) (-1074) - (d - 53)) with 0 by lia.
    cbn [shr shr_record_of_loc shr_m].
    destruct (Z.leb_spec (d - 53) (emax - prec)) as [_|Hemax]; [done|].
    change (emax - prec) with 971 in Hemax. lia. }
  apply Prim2SF_SF2Prim. unfold valid_binary, bounded, canonical_mantissa.
  rewrite Hdigits, fexp_binary64.
  apply andb_true_intro. split; [apply Z.eqb_eq; lia|].
  apply Z.leb_le. change (emax - prec) with 971. lia.
Qed.

(** The test [num >= 210] on an integer that binary64 holds. *)
Lemma number_at_least_210 (m : Z) :
  0 <= m < 2 ^ 53 -> (210 <=? number m)%float = (210 <=? m).
Proof.
  intros [Hm Hhigh]. destruct m as [|p|p]; [done| |lia].
  destruct (number_exact p Hhigh) as (mz & Hmz & Hnumber).
  rewrite leb_spec, Hnumber.
  change (Prim2SF 210) with (S754_finite false 7388718138654720 (-45)).
  pose proof (digits2_pos_bounds p) as [Hlow Hbound].
  set (d := Z.pos (digits2_pos p)) in *.
  assert (1 <= d) by lia.
  unfold SFleb, SFcompare.
  destruct (Z.compare_spec (-45) (d - 53)) as [Heq|Hlt|Hgt].
  - assert (d = 8) as Hd by lia. rewrite Hd in *.
    change (53 - 8) with 45 in Hmz. rewrite Pos.compare_cont_spec. cbn [Pos.switch_Eq].
    change (7388718138654720 ?= mz)%positive
      with (Z.pos 7388718138654720 ?= Z.pos mz).
    rewrite Hmz.
    destruct (Z.compare_spec (Z.pos 7388718138654720) (Z.pos p * 2 ^ 45));
      destruct (Z.leb_spec 210 (Z.pos p)); try done; lia.
  - assert (2 ^ 8 <= 2 ^ (d - 1)) by (apply Z.pow_le_mono_r; lia).
    destruct (Z.leb_spec 210 (Z.pos p)); [done|]. change (2 ^ 8) with 256 in *. lia.
  - assert (2 ^ d <= 2 ^ 7) by (apply Z.pow_le_mono_r; lia).
    destruct (Z.leb_spec 210 (Z.pos p)); [|done]. change (2 ^ 7) with 128 in *. lia.
Qed.

(** The decimal digits among the code units. *)
Lemma digit_10 (c : ascii) (d : Z) :
  digit 10 c = Some d ->
  (c, d) ∈ [("0", 0); ("1", 1); ("2", 2); ("3", 3); ("4", 4);
            ("5", 5); ("6", 6); ("7", 7); ("8", 8); ("9", 9)]%char.
Proof.
  destruct c as [[] [] [] [] [] [] [] []]; vm_compute; intros [= <-];
    repeat (first [by left | right]).
Qed.

Lemma digit_10_facts (c : ascii) (d : Z) :
  digit 10 c = Some d ->
  0 <= d < 10 /\ is_white c = false
  /\ c ∉ ["+"; "-"; "."; "e"; "E"; "x"; "X"; "o"; "O"; "b"; "B"; "I"]%char.
Proof.
  intros H%digit_10. rewrite !elem_of_cons, elem_of_nil in H.
  repeat destruct H as [[= -> ->]|H]; try done;
    (split_and!; [lia|lia|reflexivity|]);
    rewrite !not_elem_of_cons; split_and!; try done; apply not_elem_of_nil.
Qed.

(** A run of decimal digits is spanned up to what follows it. *)
Lemma span_digits_run (l rest : list ascii) :
  Forall (fun c => is_Some (digit 10 c)) l ->
  match rest with
  | c :: _ => digit 10 c = None
  | [] => True
  end ->
  span_digits (l ++ rest) = (omap (digit 10) l, rest).
Proof.
  intros Hl Hrest. induction Hl as [|c l [d Hc] _ IH]; cbn [app omap].
  - destruct rest as [|c rest]; [done|]. cbn. by rewrite Hrest.
  - cbn [span_digits]. rewrite Hc, IH. cbn [omap list_omap]. by rewrite Hc.
Qed.

Lemma value_of_bounds (ds : list Z) :
  Forall (fun d => 0 <= d < 10) ds ->
  0 <= value_of 10 ds < 10 ^ Z.of_nat (length ds).
Proof.
  intros Hds. unfold value_of.
  assert (forall acc, 0 <= acc ->
            0 <= fold_left (fun acc d => 10 * acc + d) ds acc
            < (acc + 1) * 10 ^ Z.of_nat (length ds)) as H.
  { induction Hds as [|d ds Hd _ IH]; intros acc Hacc.
    - cbn. lia.
    - cbn [fold_left length]. rewrite Nat2Z.inj_succ, Z.pow_succ_r by lia.
      specialize (IH (10 * acc + d)).
      assert (0 < 10 ^ Z.of_nat (length ds)) by (apply Z.pow_pos_nonneg; lia).
      nia. }
  specialize (H 0). lia.
Qed.

Lemma skip_white_run (l rest : list ascii) (c : ascii) :
  is_white c = false ->
  exists l', skip_white (l ++ c :: rest) = l' ++ c :: rest.
Proof.
  intros Hc. induction l as [|x l [l' IH]]; cbn.
  - exists []. by rewrite Hc.
  - destruct (is_white x); [by exists l'|by exists (x :: l)].
Qed.

Lemma omap_digit_length (l : list ascii) :
  Forall (fun c => is_Some (digit 10 c)) l ->
  length (omap (digit 10) l) = length l
  /\ Forall (fun d => 0 <= d < 10) (omap (digit 10) l).
Proof.
  induction 1 as [|c l [d Hc] _ [IH1 IH2]]; [done|].
  cbn [omap list_omap]. rewrite Hc. cbn [length].
  split; [by f_equal|]. constructor; [|done]. by destruct (digit_10_facts c d Hc).
Qed.

(** [Number] of a string of decimal digits, of fifteen at most. *)
Lemma StringToNumber_digits (l : list ascii) :
  Forall (fun c => is_Some (digit 10 c)) l ->
  (length l <= 15)%nat ->
  (210 <=? StringToNumber (string_of_list_ascii l))%float
  = (210 <=? value_of 10 (omap (digit 10) l)).
Proof.
  intros Hl Hlength. unfold StringToNumber.
  rewrite list_ascii_of_string_of_list_ascii.
  destruct l as [|c rest]; [done|].
  assert (trim (c :: rest) = c :: rest) as ->.
  { unfold trim. pose proof Hl as [[d Hc] _]%Forall_cons.
    apply digit_10_facts in Hc as (_ & Hc & _). cbn [skip_white]. rewrite Hc.
    destruct (rev (c :: rest)) as [|x l'] eqn:Hrev.
    { apply (f_equal (@length ascii)) in Hrev. rewrite length_rev in Hrev. done. }
    assert (is_white x = false) as Hx.
    { assert (x ∈ c :: rest) as Hin
        by (apply list_elem_of_In, in_rev; rewrite Hrev; left; done).
      rewrite Forall_forall in Hl. destruct (Hl x Hin) as [dx Hdx].
      by destruct (digit_10_facts x dx Hdx) as (_ & ? & _). }
    cbn [skip_white]. rewrite Hx, <- Hrev. apply rev_involutive. }
  pose proof Hl as [[d Hc] Hrest]%Forall_cons.
  destruct (digit_10_facts c d Hc) as (_ & _ & Hnot).
  rewrite !not_elem_of_cons in Hnot.
  destruct Hnot as (Hplus & Hminus & _ & _ & _ & _ & _ & _ & _ & _ & _ & HI & _).
  assert (match rest with
          | r :: _ =>
              if negb (bool_decide (c = "0"%char)) then None
              else if bool_decide (r = "x"%char) || bool_decide (r = "X"%char)
                   then Some 16
              else if bool_decide (r = "o"%char) || bool_decide (r = "O"%char)
                   then Some 8
              else if bool_decide (r = "b"%char) || bool_decide (r = "B"%char)
                   then Some 2
              else None
          | [] => None
          end = None) as ->.
  { destruct rest as [|r rest']; [done|].
    apply Forall_cons in Hrest as [[dr Hr] _].
    destruct (digit_10_facts r dr Hr) as (_ & _ & Hnot).
    rewrite !not_elem_of_cons in Hnot.
    destruct Hnot as (_ & _ & _ & _ & _ & ? & ? & ? & ? & ? & ? & _).
    destruct (negb _); [done|]. by rewrite !bool_decide_eq_false_2 by done. }
  rewrite !bool_decide_eq_false_2 by done.
  unfold signed_decimal. rewrite bool_decide_eq_false_2.
  2:{ cbn. intros [= -> _]. done. }
  unfold unsigned_decimal.
  pose proof (span_digits_run (c :: rest) [] Hl I) as Hspan.
  rewrite app_nil_r in Hspan. rewrite Hspan. cbn [app].
  destruct (omap_digit_length (c :: rest) Hl) as [Hlen Hds].
  pose proof (value_of_bounds _ Hds) as Hvalue. rewrite Hlen in Hvalue.
  rewrite app_nil_r.
  destruct (omap (digit 10) (c :: rest)) as [|d0 ds] eqn:Homap; [done|].
  cbn [exponent_part length]. replace (0 - Z.of_nat 0) with 0 by done.
  assert (10 ^ Z.of_nat (length (c :: rest)) <= 10 ^ 15)
    by (apply Z.pow_le_mono_r; lia).
  assert (10 ^ 15 < 2 ^ 53) by done.
  unfold scaled. destruct (value_of 10 (d0 :: ds)) as [|p|p] eqn:Hp; [done| |lia].
  cbn [Z.leb Z.compare]. change (10 ^ 0) with 1. rewrite Z.mul_1_r.
  apply number_at_least_210. lia.
Qed.

Lemma list_ascii_of_string_app (s1 s2 : string) :
  list_ascii_of_string (s1 +:+ s2) = list_ascii_of_string s1 ++ list_ascii_of_string s2.
Proof. induction s1 as [|c s1 IH]; [done|]. cbn. by rewrite <- IH. Qed.

(** [Number] of digits that a character follows which ends the digits
    without starting a fraction or an exponent: not a number. *)
Lemma StringToNumber_qualified (c : ascii) (l rest : list ascii) :
  Forall (fun c => is_Some (digit 10 c)) (c :: l) ->
  StringToNumber (string_of_list_ascii (c :: l ++ "-"%char :: rest)) = nan.
Proof.
  intros Hl. unfold StringToNumber. rewrite list_ascii_of_string_of_list_ascii.
  pose proof Hl as [[d Hc] Hrest]%Forall_cons.
  destruct (digit_10_facts c d Hc) as (_ & Hwhite & Hnot).
  rewrite !not_elem_of_cons in Hnot.
  destruct Hnot as (Hplus & Hminus & _ & _ & _ & _ & _ & _ & _ & _ & _ & HI & _).
  assert (exists rest', trim (c :: l ++ "-"%char :: rest)
                        = c :: l ++ "-"%char :: rest') as [rest' ->].
  { unfold trim. cbn [skip_white]. rewrite Hwhite.
    change (c :: l ++ "-"%char :: rest) with ((c :: l) ++ "-"%char :: rest).
    remember (c :: l) as k eqn:Hk. clear Hl.
    rewrite rev_app_distr. cbn [rev]. rewrite <- app_assoc. cbn [app].
    destruct (skip_white_run (rev rest) (rev k) "-"%char eq_refl) as [l' ->].
    exists (rev l'). rewrite rev_app_distr. cbn [rev]. rewrite <- app_assoc.
    rewrite rev_involutive. by subst k. }
  assert (match l ++ "-"%char :: rest' with
          | r :: _ =>
              if negb (bool_decide (c = "0"%char)) then None
              else if bool_decide (r = "x"%char) || bool_decide (r = "X"%char)
                   then Some 16
              else if bool_decide (r = "o"%char) || bool_decide (r = "O"%char)
                   then Some 8
              else if bool_decide (r = "b"%char) || bool_decide (r = "B"%char)
                   then Some 2
              else None
          | [] => None
          end = None) as ->.
  { destruct l as [|r l']; cbn [app].
    - by destruct (negb _).
    - apply Forall_cons in Hrest as [[dr Hr] _].
      destruct (digit_10_facts r dr Hr) as (_ & _ & Hnot).
      rewrite !not_elem_of_cons in Hnot.
      destruct Hnot as (_ & _ & _ & _ & _ & ? & ? & ? & ? & ? & ? & _).
      destruct (negb _); [done|]. by rewrite !bool_decide_eq_false_2 by done. }
  rewrite !bool_decide_eq_false_2 by done.
  unfold signed_decimal. rewrite bool_decide_eq_false_2.
  2:{ cbn. intros [= -> _]. done. }
  unfold unsigned_decimal.
  change (c :: l ++ "-"%char :: rest') with ((c :: l) ++ "-"%char :: rest').
  rewrite (span_digits_run (c :: l) ("-"%char :: rest') Hl eq_refl).
  rewrite bool_decide_eq_false_2 by done. rewrite app_nil_r.
  destruct (omap_digit_length (c :: l) Hl) as [Hlen _].
  destruct (omap (digit 10) (c :: l)); [done|]. reflexivity.
Qed.

(** The dots apart, a version made of digits and dots. *)
Lemma without_dots_digits (l : list ascii) :
  Forall (fun c => c = "."%char \/ is_Some (digit 10 c)) l ->
  Forall (fun c => is_Some (digit 10 c)) (filter (fun c => c <> "."%char) l)
  /\ omap (digit 10) (filter (fun c => c <> "."%char) l) = omap (digit 10) l.
Proof.
  induction 1 as [|c l Hc _ [IH1 IH2]]; [done|].
  rewrite filter_cons. destruct Hc as [->|Hc].
  - rewrite decide_False by (intros H; by apply H). by split.
  - destruct Hc as [d Hc]. pose proof (digit_10_facts c d Hc) as (_ & _ & Hnot).
    rewrite !not_elem_of_cons in Hnot. destruct Hnot as (_ & _ & Hdot & _).
    rewrite decide_True by done. cbn [omap list_omap]. rewrite Hc, IH2.
    split; [|done]. constructor; [by exists d|done].
Qed.

Lemma _checkVersion_qualified (version qualifier : string)
    (c : ascii) (rest : list ascii) :
  list_ascii_of_string version = c :: rest ->
  is_Some (digit 10 c) ->
  Forall (fun c => c = "."%char \/ is_Some (digit 10 c)) rest ->
  _checkVersion (version +:+ "-" +:+ qualifier) = false.
Proof.
  intros Hversion Hc Hrest. unfold _checkVersion, without_dots. cbn zeta.
  rewrite !list_ascii_of_string_app, Hversion.
  change (list_ascii_of_string "-") with ["-"%char].
  rewrite !filter_app, filter_cons. cbn [app].
  destruct Hc as [d Hc]. pose proof (digit_10_facts c d Hc) as (_ & _ & Hnot).
  rewrite !not_elem_of_cons in Hnot. destruct Hnot as (_ & _ & Hdot & _).
  rewrite decide_True by done.
  rewrite (filter_cons _ "-"%char), decide_True by done.
  destruct (without_dots_digits rest Hrest) as [Hdigits _].
  rewrite filter_nil. cbn [app].
  rewrite StringToNumber_qualified; [done|]. constructor; [by exists d|done].
Qed.

Lemma forallb_seq (f : nat -> bool) (start len n : nat) :
  forallb f (seq start len) = true -> (start <= n < start + len)%nat -> f n = true.
Proof. rewrite forallb_forall. intros H Hn. apply H, in_seq. lia. Qed.

End Versions.

(** X13. For a version made of decimal digits and dots, with fifteen
    digits at most, [_checkVersion] compares with 210 the integer that
    the digits write once the dots are removed (0 when there is no
    digit): the components are not compared one by one. *)
Theorem _checkVersion_reads_the_digits (str : string) :
  Forall (fun c => c = "."%char \/ is_Some (digit 10 c)) (list_ascii_of_string str) ->
  (length (omap (digit 10) (list_ascii_of_string str)) <= 15)%nat ->
  _checkVersion str
  = (210 <=? value_of 10 (omap (digit 10) (list_ascii_of_string str))).
Proof.
  intros Hstr Hlength. unfold _checkVersion, without_dots. cbn zeta.
  destruct (without_dots_digits _ Hstr) as [Hdigits Homap].
  rewrite StringToNumber_digits, Homap; [done|done|].
  destruct (omap_digit_length _ Hdigits) as [<- _]. by rewrite Homap.
Qed.

Lemma _checkVersion_reads_the_digits_witness :
  omap (digit 10) (list_ascii_of_string "1.10.0") = [1; 1; 0; 0]
  /\ _checkVersion "1.10.0" = (210 <=? 1100)
  /\ _checkVersion "1.10.0" = true.
Proof.
  split; [reflexivity|].
  rewrite (_checkVersion_reads_the_digits "1.10.0"); [by split| |vm_compute; lia].
  repeat (constructor; [first [by left | right; by eexists]|]). constructor.
Defined.

(** X14. On a version [a.b.c] whose three components have one digit
    each, [_checkVersion] holds exactly from 2.1.0 on. *)
Theorem _checkVersion_on_single_digit_components (a b c : nat) :
  (a < 10)%nat -> (b < 10)%nat -> (c < 10)%nat ->
  _checkVersion (pretty a +:+ "." +:+ pretty b +:+ "." +:+ pretty c) = true
  <-> (2 < a \/ a = 2 /\ 1 <= b)%nat.
Proof.
  intros Ha Hb Hc.
  assert (forallb (fun a => forallb (fun b => forallb (fun c =>
            Bool.eqb (_checkVersion (pretty a +:+ "." +:+ pretty b +:+ "." +:+ pretty c))
                     ((2 <? a) || (a =? 2) && (1 <=? b))%nat)
            (seq 0 10)) (seq 0 10)) (seq 0 10) = true) as Hall
    by (vm_compute; reflexivity).
  apply (forallb_seq _ _ _ a) in Hall; [|lia].
  apply (forallb_seq _ _ _ b) in Hall; [|lia].
  apply (forallb_seq _ _ _ c) in Hall; [|lia].
  apply Bool.eqb_prop in Hall. rewrite Hall.
  rewrite orb_true_iff, andb_true_iff, Nat.ltb_lt, Nat.eqb_eq, Nat.leb_le. done.
Qed.

Lemma _checkVersion_on_single_digit_components_witness :
  (_checkVersion "2.1.0" = true <-> (2 < 2 \/ 2 = 2 /\ 1 <= 1)%nat)
  /\ (_checkVersion "2.0.9" = true <-> (2 < 2 \/ 2 = 2 /\ 1 <= 0)%nat).
Proof.
  split.
  - apply (_checkVersion_on_single_digit_components 2 1 0); lia.
  - apply (_checkVersion_on_single_digit_components 2 0 9); lia.
Defined.

(** X15. On a version [a.b.c] whose minor component has two digits (and
    the others one), [_checkVersion] holds as soon as the major component
    is 1 at least, or the minor one 21 at least: 1.10.0 passes, that
    precedes 2.1.0. *)
Theorem _checkVersion_on_a_two_digit_minor (a b c : nat) :
  (a < 10)%nat -> (10 <= b < 100)%nat -> (c < 10)%nat ->
  _checkVersion (pretty a +:+ "." +:+ pretty b +:+ "." +:+ pretty c) = true
  <-> (1 <= a \/ 21 <= b)%nat.
Proof.
  intros Ha Hb Hc.
  assert (forallb (fun a => forallb (fun b => forallb (fun c =>
            Bool.eqb (_checkVersion (pretty a +:+ "." +:+ pretty b +:+ "." +:+ pretty c))
                     ((1 <=? a) || (21 <=? b))%nat)
            (seq 0 10)) (seq 10 90)) (seq 0 10) = true) as Hall
    by (vm_compute; reflexivity).
  apply (forallb_seq _ _ _ a) in Hall; [|lia].
  apply (forallb_seq _ _ _ b) in Hall; [|lia].
  apply (forallb_seq _ _ _ c) in Hall; [|lia].
  apply Bool.eqb_prop in Hall. rewrite Hall.
  rewrite orb_true_iff, !Nat.leb_le. done.
Qed.

Lemma _checkVersion_on_a_two_digit_minor_witness :
  _checkVersion "1.10.0" = true <-> (1 <= 1 \/ 21 <= 10)%nat.
Proof. apply (_checkVersion_on_a_two_digit_minor 1 10 0); lia. Defined.

(** X16. [_checkVersion] fails on every version of digits and dots,
    starting with a digit, that a qualifier follows after a hyphen
    ([5.0.0-alpha5], [6.0.0-beta1]), whatever the digits are: [Number]
    answers NaN. *)
Theorem _checkVersion_fails_on_a_qualifier (version qualifier : string)
    (c : ascii) (rest : list ascii) :
  list_ascii_of_string version = c :: rest ->
  is_Some (digit 10 c) ->
  Forall (fun c => c = "."%char \/ is_Some (digit 10 c)) rest ->
  _checkVersion (version +:+ "-" +:+ qualifier) = false.
Proof. apply _checkVersion_qualified. Qed.

Lemma _checkVersion_fails_on_a_qualifier_witness :
  _checkVersion "5.0.0-alpha5" = false.
Proof.
  apply (_checkVersion_fails_on_a_qualifier "5.0.0" "alpha5" "5"%char
           (list_ascii_of_string ".0.0") eq_refl).
  - by eexists.
  - repeat (constructor; [first [by left | right; by eexists]|]). constructor.
Defined.

(** ** [version] and [putTemplate] *)

Section Version.

Variable RegExp : string -> option (string -> bool).

Lemma filter_none {A} (P : A -> Prop) `{forall x, Decision (P x)} (l : list A) :
  Forall (fun x => ~ P x) l -> filter P l = [].
Proof.
  induction 1 as [|x l Hx _ IH]; [done|].
  by rewrite filter_cons, decide_False.
Qed.

(** [version] once the first version passes the check and the settings
    have come. *)
Lemma version_checked (_opConfig : js) (data : cluster_stats) (first : string)
    (rest : list string) (settings : answer (list (string * js))) :
  nodes_versions data = first :: rest ->
  _checkVersion first = true ->
  version RegExp _opConfig (fulfilled data) settings
  = let '(warnings, inner) :=
      match settings with
      | fulfilled results => version_settings RegExp _opConfig results
      | failed err => ([], Rejected err)
      end in
    let '(errors, outer) :=
      match inner with
      | Rejected err => version_catch err
      | _ => ([], inner)
      end in
    {| asked := [cluster_stats_call; indices_getSettings_call];
       warned := warnings; complained := errors; outcome_of := outer |}.
Proof. intros Hdata Hfirst. unfold version. by rewrite Hdata, Hfirst. Qed.

End Version.

(** X17. When the first node version passes [_checkVersion], the
    settings have come, the pattern [config.index] compiles, and the
    settings hold nothing truthy under [config.index] and no key that
    matches it, [version] asks the cluster statistics then the settings,
    warns nothing, and rejects with the text [index specified in reader
    does not exist], which is also logged through [logger.error]: the
    [.catch] that follows receives the rejection. *)
Theorem version_rejects_a_missing_index (RegExp : string -> option (string -> bool))
    (_opConfig : js) (data : cluster_stats) (first : string) (rest : list string)
    (results : list (string * js)) (regex : string -> bool) :
  let name := read (config _opConfig) "index" in
  nodes_versions data = first :: rest ->
  _checkVersion first = true ->
  RegExp (source name) = Some regex ->
  truthy (member results (ToString name)) = false ->
  Forall (fun kv => regex (fst kv) = false) results ->
  version RegExp _opConfig (fulfilled data) (fulfilled results)
  = {| asked := [cluster_stats_call; indices_getSettings_call];
       warned := [];
       complained := [logger_error [JStr "index specified in reader does not exist"]];
       outcome_of := Rejected (JStr "index specified in reader does not exist") |}.
Proof.
  intros name Hdata Hfirst Hregex Hmember Hresults.
  rewrite (version_checked _ _ _ _ _ _ Hdata Hfirst).
  unfold version_settings, verifyIndex. fold name. rewrite Hregex, Hmember.
  rewrite forOwn_filter, filter_none.
  2:{ eapply Forall_impl; [exact Hresults|]. cbn. congruence. }
  assert (existsb (fun kv => regex (fst kv)) results = false) as ->.
  { clear -Hresults. induction Hresults as [|kv l Hkv _ IH]; [done|].
    cbn. by rewrite Hkv, IH. }
  reflexivity.
Qed.

Lemma version_rejects_a_missing_index_witness :
  version literal_RegExp (JObj [("index", JStr "metrics")])
    (fulfilled {| nodes_versions := ["2.3.1"] |}) (fulfilled sample_settings)
  = {| asked := [cluster_stats_call; indices_getSettings_call];
       warned := [];
       complained := [logger_error [JStr "index specified in reader does not exist"]];
       outcome_of := Rejected (JStr "index specified in reader does not exist") |}.
Proof.
  apply (version_rejects_a_missing_index literal_RegExp
           (JObj [("index", JStr "metrics")]) {| nodes_versions := ["2.3.1"] |}
           "2.3.1" [] sample_settings (occurs "metrics"));
    try reflexivity.
  by repeat constructor.
Defined.

(** X18. When the first node version passes [_checkVersion], the
    pattern [config.index] compiles and the settings hold nothing truthy
    under [config.index] itself, but keys that match it, each with its
    [settings.index], [version] resolves with undefined after one warning
    per matching index, in enumeration order, and logs no error. *)
Theorem version_warns_for_each_matching_index
    (RegExp : string -> option (string -> bool))
    (_opConfig : js) (data : cluster_stats) (first : string) (rest : list string)
    (results : list (string * js)) (regex : string -> bool) (entries : list js) :
  let name := read (config _opConfig) "index" in
  nodes_versions data = first :: rest ->
  _checkVersion first = true ->
  RegExp (source name) = Some regex ->
  truthy (member results (ToString name)) = false ->
  mapM (fun kv => size ← windowSize (snd kv);
                  Returns (window (JStr (fst kv)) size))
       (filter (fun kv => regex (fst kv) = true) results)
  = Returns entries ->
  entries <> [] ->
  version RegExp _opConfig (fulfilled data) (fulfilled results)
  = {| asked := [cluster_stats_call; indices_getSettings_call];
       warned := map max_result_window_warning entries;
       complained := [];
       outcome_of := Resolved JUndefined |}.
Proof.
  intros name Hdata Hfirst Hregex Hmember Hentries Hsome.
  rewrite (version_checked _ _ _ _ _ _ Hdata Hfirst).
  unfold version_settings, verifyIndex. fold name. rewrite Hregex, Hmember.
  rewrite forOwn_filter, Hentries. cbn.
  destruct (filter _ results) as [|kv l] eqn:Hfilter.
  { cbn in Hentries. by injection Hentries as <-. }
  assert (existsb (fun kv => regex (fst kv)) results = true) as ->; [|done].
  assert (kv ∈ filter (fun kv => regex (fst kv) = true) results) as Hin
    by (rewrite Hfilter; left).
  apply list_elem_of_filter in Hin as [Hkv Hin].
  apply existsb_exists. exists kv. split; [by apply list_elem_of_In|done].
Qed.

Lemma version_warns_for_each_matching_index_witness :
  let c := version literal_RegExp (JObj [("index", JStr "logs-")])
             (fulfilled {| nodes_versions := ["5.6.3"] |}) (fulfilled sample_settings) in
  outcome_of c = Resolved JUndefined
  /\ complained c = []
  /\ warned c
     = map max_result_window_warning
         [window (JStr "logs-2017.01") (JStr "50000");
          window (JStr "logs-2017.02") (JNum 10000)].
Proof.
  cbn zeta.
  rewrite (version_warns_for_each_matching_index literal_RegExp
             (JObj [("index", JStr "logs-")]) {| nodes_versions := ["5.6.3"] |}
             "5.6.3" [] sample_settings (occurs "logs-")
             [window (JStr "logs-2017.01") (JStr "50000");
              window (JStr "logs-2017.02") (JNum 10000)]
             eq_refl eq_refl eq_refl eq_refl eq_refl);
    [by split_and!|done].
Defined.

(** X19. When the first node version passes [_checkVersion], the
    pattern [config.index] compiles and the settings hold, under
    [config.index] itself, a truthy value with a [settings.index],
    [version] resolves with undefined after exactly one warning, for that
    index, with its [max_result_window] or 10000 when that is falsy;
    whatever other indices match the pattern. *)
Theorem version_warns_once_for_an_exact_match
    (RegExp : string -> option (string -> bool))
    (_opConfig : js) (data : cluster_stats) (first : string) (rest : list string)
    (results : list (string * js)) (regex : string -> bool) (value : js) :
  let name := read (config _opConfig) "index" in
  nodes_versions data = first :: rest ->
  _checkVersion first = true ->
  RegExp (source name) = Some regex ->
  own (ToString name) results = Some value ->
  truthy value = true ->
  nullish (lodash_get value ["settings"; "index"]) = false ->
  let size := lodash_get value ["settings"; "index"; "max_result_window"] in
  version RegExp _opConfig (fulfilled data) (fulfilled results)
  = {| asked := [cluster_stats_call; indices_getSettings_call];
       warned := [max_result_window_warning
                    (window name (if truthy size then size else JNum 10000))];
       complained := [];
       outcome_of := Resolved JUndefined |}.
Proof.
  intros name Hdata Hfirst Hregex Hown Hvalue Hindex size.
  rewrite (version_checked _ _ _ _ _ _ Hdata Hfirst).
  unfold version_settings, verifyIndex, member. fold name.
  rewrite Hregex, Hown, Hvalue.
  assert (windowSize value
          = Returns (if truthy size then size else JNum 10000)) as ->; [|done].
  unfold windowSize, size. clear -Hvalue Hindex.
  destruct value; try done. cbn in *.
  destruct (field "settings" fields) eqn:Hsettings; try done. cbn in *.
  by destruct (field "index" fields0).
Qed.

Lemma version_warns_once_for_an_exact_match_witness :
  let c := version literal_RegExp (JObj [("index", JStr "events")])
             (fulfilled {| nodes_versions := ["5.6.3"] |})
             (fulfilled (("events-old", settings_of (JStr "20000")) :: sample_settings)) in
  occurs "events" "events-old" = true
  /\ outcome_of c = Resolved JUndefined
  /\ warned c = [max_result_window_warning (window (JStr "events") (JNum 10000))].
Proof.
  cbn zeta. split; [reflexivity|].
  rewrite (version_warns_once_for_an_exact_match literal_RegExp
             (JObj [("index", JStr "events")]) {| nodes_versions := ["5.6.3"] |}
             "5.6.3" [] (("events-old", settings_of (JStr "20000")) :: sample_settings)
             (occurs "events") (settings_of JUndefined)
             eq_refl eq_refl eq_refl eq_refl eq_refl eq_refl).
  by split.
Defined.

(** X20. When the first node version is made of digits and dots,
    starts with a digit and carries a qualifier after a hyphen,
    [version] resolves with undefined without asking for the settings:
    the index is not checked, and nothing is warned or logged. *)
Theorem version_skips_the_index_check_for_a_qualified_version
    (RegExp : string -> option (string -> bool))
    (_opConfig : js) (data : cluster_stats) (version_ qualifier : string)
    (others : list string) (c : ascii) (rest : list ascii)
    (settings : answer (list (string * js))) :
  nodes_versions data = (version_ +:+ "-" +:+ qualifier) :: others ->
  list_ascii_of_string version_ = c :: rest ->
  is_Some (digit 10 c) ->
  Forall (fun c => c = "."%char \/ is_Some (digit 10 c)) rest ->
  version RegExp _opConfig (fulfilled data) settings
  = {| asked := [cluster_stats_call]; warned := []; complained := [];
       outcome_of := Resolved JUndefined |}.
Proof.
  intros Hdata Hversion Hc Hrest. unfold version. rewrite Hdata.
  by rewrite (_checkVersion_qualified version_ qualifier c rest).
Qed.

Lemma version_skips_the_index_check_for_a_qualified_version_witness :
  version literal_RegExp (JObj [("index", JStr "metrics")])
    (fulfilled {| nodes_versions := ["6.0.0-beta1"] |}) (fulfilled sample_settings)
  = {| asked := [cluster_stats_call]; warned := []; complained := [];
       outcome_of := Resolved JUndefined |}.
Proof.
  apply (version_skips_the_index_check_for_a_qualified_version literal_RegExp
           (JObj [("index", JStr "metrics")]) {| nodes_versions := ["6.0.0-beta1"] |}
           "6.0.0" "beta1" [] "6"%char (list_ascii_of_string ".0.0")
           (fulfilled sample_settings) eq_refl eq_refl).
  - by eexists.
  - repeat (constructor; [first [by left | right; by eexists]|]). constructor.
Defined.

(** X21. [version] passes a failure of [client.cluster.stats] on as it
    came: the promise is rejected with the error itself, nothing is
    logged and the settings are not asked. A failure of
    [client.indices.getSettings], asked because the first node version
    passes [_checkVersion], that [parseError] can read, is rejected with
    the normalized reason, logged once through [logger.error]. *)
Theorem version_failures (RegExp : string -> option (string -> bool))
    (_opConfig : js) (data : cluster_stats) (first : string) (rest : list string)
    (err : js) :
  nodes_versions data = first :: rest ->
  _checkVersion first = true ->
  readable err = true ->
  (forall settings,
     version RegExp _opConfig (failed err) settings
     = {| asked := [cluster_stats_call]; warned := []; complained := [];
          outcome_of := Rejected err |})
  /\ exists errMsg,
       parseError err = Returns errMsg
       /\ version RegExp _opConfig (fulfilled data) (failed err)
          = {| asked := [cluster_stats_call; indices_getSettings_call];
               warned := []; complained := [logger_error [errMsg]];
               outcome_of := Rejected errMsg |}.
Proof.
  intros Hdata Hfirst (errMsg & HerrMsg)%readable_returns. split; [done|].
  exists errMsg. split; [done|].
  rewrite (version_checked _ _ _ _ _ _ Hdata Hfirst).
  unfold version_catch. by rewrite HerrMsg.
Qed.

Lemma version_failures_witness :
  version literal_RegExp JUndefined (failed error_not_found) (fulfilled sample_settings)
  = {| asked := [cluster_stats_call]; warned := []; complained := [];
       outcome_of := Rejected error_not_found |}
  /\ version literal_RegExp JUndefined (fulfilled {| nodes_versions := ["2.3.1"] |})
       (failed error_not_found)
     = {| asked := [cluster_stats_call; indices_getSettings_call]; warned := [];
          complained :=
            [logger_error [JStr "[index_not_found_exception] no such index"]];
          outcome_of := Rejected (JStr "[index_not_found_exception] no such index") |}.
Proof.
  destruct (version_failures literal_RegExp JUndefined {| nodes_versions := ["2.3.1"] |}
              "2.3.1" [] error_not_found eq_refl eq_refl eq_refl)
    as (Hstats & errMsg & HerrMsg & Hsettings).
  split; [apply Hstats|]. rewrite Hsettings. by injection HerrMsg as <-.
Defined.

(** X22. [putTemplate] settles on the first answer of the client,
    whatever it is: it resolves with the results as they came, or rejects,
    with the normalized reason when [parseError] returns one; it never
    asks again (also on a rejected execution), schedules no delay and logs
    nothing. *)
Theorem putTemplate_settles_without_retry (template name : js) (a : answer js)
    (random : float) :
  let c := step putTemplate (begin (putTemplate_request template name)) (a, random) in
  settled c <> Pending
  /\ awaited c = None
  /\ requests c = [putTemplate_request template name]
  /\ timers c = []
  /\ events c = []
  /\ (forall results, a = fulfilled results -> settled c = Resolved results)
  /\ (forall err errMsg,
        a = failed err -> parseError err = Returns errMsg ->
        settled c = Rejected errMsg).
Proof.
  cbn zeta. destruct a as [results|err].
  - cbn. split_and!; try done. by intros ? [= <-].
  - unfold step. cbn. destruct (parseError err) as [errMsg|] eqn:Herr; cbn;
      split_and!; try done; intros ? ? [= <-] Hmsg; rewrite Herr in Hmsg;
      by try injection Hmsg as <-.
Qed.
